(** * BitFunnel ingestion core: Document n-gram streaming and Ingestor lifecycle

    A shallow embedding of [src/Index/src/Document.cpp] and of the
    contract declared in [src/Index/src/Ingestor.h], with the properties
    of the n-gram window, the stream state machine and the document
    lifecycle proved over it. *)

From stdpp Require Import gmap strings list fin_maps fin_sets.
From Stdlib Require Import NArith Lia.

#[local] Set Warnings "-clear-no-such-hyp".

Local Open Scope string_scope.
Local Open Scope list_scope.

(** ** Exceptions and the state-and-exception monad

    C++ exceptions do not roll the object back: whatever was written
    before the [throw] stays written.  A computation therefore always
    returns the final state next to its outcome. *)

Inductive exn : Type :=
  | FatalError (msg : string)        (* throw FatalError("...") *)
  | LogAssertFailed (cond : string)  (* a failed LogAssertB(cond) *)
  | CapacityError (msg : string).    (* Ingestor::Add: no space left *)

Inductive outcome (A : Type) : Type :=
  | Returned (a : A)
  | Thrown (e : exn)
  | OutOfFuel.

Arguments Returned {A} a.
Arguments Thrown {A} e.
Arguments OutOfFuel {A}.

Definition M (S A : Type) : Type := S -> outcome A * S.

Definition ret {S A} (a : A) : M S A := fun s => (Returned a, s).

Definition bind {S A B} (m : M S A) (k : A -> M S B) : M S B :=
  fun s =>
    match m s with
    | (Returned a, s') => k a s'
    | (Thrown e, s') => (Thrown e, s')
    | (OutOfFuel, s') => (OutOfFuel, s')
    end.

Declare Scope monad_scope.
Delimit Scope monad_scope with monad.
Notation "'let*' x := m 'in' k" := (bind m (fun x => k))
  (at level 10, x name, m at level 100, k at level 200) : monad_scope.
Notation "m ;; k" := (bind m (fun _ => k))
  (at level 100, k at level 200, right associativity) : monad_scope.
Local Open Scope monad_scope.

Definition throw {S A} (e : exn) : M S A := fun s => (Thrown e, s).
Definition out_of_fuel {S A} : M S A := fun s => (OutOfFuel, s).
Definition gets {S A} (f : S -> A) : M S A := fun s => (Returned (f s), s).
Definition modify {S} (f : S -> S) : M S unit := fun s => (Returned tt, f s).

(** Lift a fallible pure update of the state. *)
Definition try_modify {S} (f : S -> exn + S) : M S unit :=
  fun s =>
    match f s with
    | inl e => (Thrown e, s)
    | inr s' => (Returned tt, s')
    end.

(** ** Term *)

(** The shared, read-only document frequency table: text to class. *)
Definition DocFreqTable : Type := string -> N.

(** Modelled from the spec: the Term class (Term.h / Term.cpp) is not
    among the sources.  A Term is the value
    [{ text, streamId, frequencyClass }]. *)
Record Term : Type := mkTerm {
  text : string;
  streamId : N;
  frequencyClass : N
}.

(** Modelled from the spec: the constructor [Term(text, streamId, table)]
    builds a unigram from raw text, stream id and a frequency table
    lookup. *)
Definition Term_new (termText : string) (stream : N) (table : DocFreqTable) : Term :=
  {| text := termText; streamId := stream; frequencyClass := table termText |}.

(** Modelled from the spec: [Term::AddTerm(other)] gives the higher-order
    Term whose text is the ordered concatenation and whose frequency
    class is re-derived from the same table using the composed text.
    The table is the shared one the Document holds; it is passed
    explicitly. *)
Definition Term_AddTerm (table : DocFreqTable) (t other : Term) : Term :=
  {| text := text t +:+ text other;
     streamId := streamId t;
     frequencyClass := table (text t +:+ text other) |}.

(** Modelled from the spec: two Terms are equal iff their canonical text
    and their frequency classification match.  [Term_key] is what
    equality and hashing look at. *)
Definition Term_key (t : Term) : string * N := (text t, frequencyClass t).

(** ** The deduplicated term set

    [m_terms] is a set of Term under the equality above: a finite map
    from the key to the representative stored first.  [insert] keeps the
    stored element when an equal one is present, as the C++ set
    containers do. *)
Abbreviation TermSet := (gmap (string * N) Term).

Definition TermSet_insert (t : Term) (s : TermSet) : TermSet :=
  match s !! Term_key t with
  | Some _ => s
  | None => <[Term_key t := t]> s
  end.

Definition TermSet_contains (t : Term) (s : TermSet) : Prop :=
  is_Some (s !! Term_key t).

Definition TermSet_insert_all (l : list Term) (s : TermSet) : TermSet :=
  foldl (fun s t => TermSet_insert t s) s l.

Definition TermSet_of_list (l : list Term) : TermSet :=
  TermSet_insert_all l ∅.

(** ** RingBuffer *)

(** Modelled from the spec: RingBuffer.h is not among the sources.  The
    buffer is a FIFO of at most [capacity] elements, [0 <= count <=
    capacity]; the circular array and its index arithmetic are not
    modelled. *)
Module RingBuffer.
Section WithElement.
Context {T : Type}.

(** Modelled from the spec: a fixed capacity and the elements in FIFO
    order. *)
Record t : Type := mk {
  capacity : nat;
  items : list T   (* oldest first *)
}.

(** Modelled from the spec: [GetCount()] and [IsEmpty()]. *)
Definition GetCount (rb : t) : nat := length (items rb).
Definition IsEmpty (rb : t) : bool := Nat.eqb (GetCount rb) 0.

(** Modelled from the spec: [Reset()] clears to empty regardless of
    prior state. *)
Definition Reset (rb : t) : t := {| capacity := capacity rb; items := [] |}.

(** Modelled from the spec: [PushBack()] returns a slot for in-place
    construction of a new element, incrementing [count]; it fails (a
    fatal precondition violation) if [count == capacity].  [x] is the
    element the caller constructs in the slot. *)
Definition PushBack (x : T) (rb : t) : exn + t :=
  if Nat.eqb (GetCount rb) (capacity rb)
  then inl (LogAssertFailed "RingBuffer::PushBack: count < capacity")
  else inr {| capacity := capacity rb; items := items rb ++ [x] |}.

(** Modelled from the spec: [PopFront()] removes the oldest element and
    fails if empty. *)
Definition PopFront (rb : t) : exn + t :=
  match items rb with
  | [] => inl (LogAssertFailed "RingBuffer::PopFront: count > 0")
  | _ :: rest => inr {| capacity := capacity rb; items := rest |}
  end.

(** Modelled from the spec: [[i]] for [0 <= i < count] is the i-th
    element in FIFO order; the spec gives it no value outside that
    range, where the model fails. *)
Definition index (rb : t) (i : nat) : exn + T :=
  match items rb !! i with
  | Some x => inr x
  | None => inl (LogAssertFailed "RingBuffer::operator[]: index < count")
  end.
End WithElement.
Arguments t : clear implicits.
End RingBuffer.

(** ** Document *)

(** [IConfiguration], as far as the Document constructor reads it. *)
Record IConfiguration : Type := {
  GetMaxGramSize : nat;
  GetDocumentFrequencyTable : DocFreqTable
}.

Definition size_t_modulus : N := 2 ^ 64.

(** The members of [Document].  Sizes that the code only compares are
    [nat]; [m_postingCount], which it increments, is an [N] below
    [size_t_modulus]. *)
Record Document : Type := mkDocument {
  m_maxGramSize : nat;
  m_docFreqTable : DocFreqTable;
  m_postingCount : N;
  m_streamIsOpen : bool;
  m_currentStreamId : N;
  m_ringBuffer : RingBuffer.t Term;
  m_terms : TermSet
}.

(** What a Document method acts on: the object and [std::cout], of which
    only the Terms printed by [PostTerm] are kept, oldest first. *)
Record World : Type := mkWorld {
  doc : Document;
  cout : list Term
}.

Definition set_postingCount (n : N) (d : Document) : Document :=
  mkDocument (m_maxGramSize d) (m_docFreqTable d) n (m_streamIsOpen d)
             (m_currentStreamId d) (m_ringBuffer d) (m_terms d).
Definition set_streamIsOpen (b : bool) (d : Document) : Document :=
  mkDocument (m_maxGramSize d) (m_docFreqTable d) (m_postingCount d) b
             (m_currentStreamId d) (m_ringBuffer d) (m_terms d).
Definition set_currentStreamId (i : N) (d : Document) : Document :=
  mkDocument (m_maxGramSize d) (m_docFreqTable d) (m_postingCount d)
             (m_streamIsOpen d) i (m_ringBuffer d) (m_terms d).
Definition set_ringBuffer (rb : RingBuffer.t Term) (d : Document) : Document :=
  mkDocument (m_maxGramSize d) (m_docFreqTable d) (m_postingCount d)
             (m_streamIsOpen d) (m_currentStreamId d) rb (m_terms d).
Definition set_terms (s : TermSet) (d : Document) : Document :=
  mkDocument (m_maxGramSize d) (m_docFreqTable d) (m_postingCount d)
             (m_streamIsOpen d) (m_currentStreamId d) (m_ringBuffer d) s.

Definition on_doc (f : Document -> Document) (w : World) : World :=
  mkWorld (f (doc w)) (cout w).

(** A ring buffer operation on [m_ringBuffer]. *)
Definition on_ringBuffer (f : RingBuffer.t Term -> exn + RingBuffer.t Term)
    (w : World) : exn + World :=
  match f (m_ringBuffer (doc w)) with
  | inl e => inl e
  | inr rb => inr (on_doc (set_ringBuffer rb) w)
  end.

(** [Document::Document(config)].  The constructor leaves
    [m_currentStreamId] uninitialised: [uninit] is the value it happens
    to hold.  [capacity] is the ring buffer's fixed capacity, a constant
    of the missing Document.h. *)
Definition Document_new (config : IConfiguration) (capacity : nat) (uninit : N) : Document :=
  {| m_maxGramSize := GetMaxGramSize config;
     m_docFreqTable := GetDocumentFrequencyTable config;
     m_postingCount := 0;
     m_streamIsOpen := false;
     m_currentStreamId := uninit;
     m_ringBuffer := RingBuffer.mk capacity [];
     m_terms := ∅ |}.

(** [Document::GetPostingCount]: the number of unique terms. *)
Definition GetPostingCount (d : Document) : nat := size (m_terms d).

(** [Document::PostTerm]: print the term, then insert it in the set. *)
Definition PostTerm (term : Term) : M World unit :=
  modify (fun w : World => mkWorld (doc w) (cout w ++ [term]));;
  modify (on_doc (fun d => set_terms (TermSet_insert term (m_terms d)) d)).

(** The loop [for (n = 1; n < count; ++n)] of [ProcessNGrams], entered
    with [steps = count - n] iterations to go; the local [term] is the
    accumulator. *)
Fixpoint ProcessNGrams_for (steps n : nat) (term : Term) : M World unit :=
  match steps with
  | O => ret tt
  | S steps' =>
      let* d := gets doc in
      match RingBuffer.index (m_ringBuffer d) n with
      | inl e => throw e
      | inr x =>
          let term' := Term_AddTerm (m_docFreqTable d) term x in
          PostTerm term';;
          ProcessNGrams_for steps' (S n) term'
      end
  end.

(** [Document::ProcessNGrams]. *)
Definition ProcessNGrams : M World unit :=
  let* count := gets (fun w : World => RingBuffer.GetCount (m_ringBuffer (doc w))) in
  if Nat.ltb 0 count then
    let* d := gets doc in
    match RingBuffer.index (m_ringBuffer d) 0 with
    | inl e => throw e
    | inr term =>
        PostTerm term;;
        ProcessNGrams_for (count - 1) 1 term
    end
  else throw (LogAssertFailed "count > 0").

(** The [while (!m_ringBuffer.IsEmpty())] loop of [PurgeRingBuffer]. *)
Fixpoint PurgeRingBuffer_while (fuel : nat) : M World unit :=
  let* isEmpty := gets (fun w : World => RingBuffer.IsEmpty (m_ringBuffer (doc w))) in
  if isEmpty then ret tt
  else
    match fuel with
    | O => out_of_fuel
    | S fuel' =>
        ProcessNGrams;;
        try_modify (on_ringBuffer RingBuffer.PopFront);;
        PurgeRingBuffer_while fuel'
    end.

(** [Document::PurgeRingBuffer].  Each iteration pops one element, so
    the element count is fuel enough (see [PurgeRingBuffer_eq]). *)
Definition PurgeRingBuffer : M World unit :=
  let* count := gets (fun w : World => RingBuffer.GetCount (m_ringBuffer (doc w))) in
  PurgeRingBuffer_while count.

(** [Document::OpenStream]. *)
Definition OpenStream (name : string) : M World unit :=
  let* isOpen := gets (fun w : World => m_streamIsOpen (doc w)) in
  if isOpen then
    throw (FatalError "Attempting OpenStream() when another stream is open.")
  else
    modify (on_doc (set_streamIsOpen true));;
    modify (on_doc (set_currentStreamId 0));;
    modify (on_doc (fun d => set_ringBuffer (RingBuffer.Reset (m_ringBuffer d)) d)).

(** [Document::AddTerm]. *)
Definition AddTerm (termText : string) : M World unit :=
  let* isOpen := gets (fun w : World => m_streamIsOpen (doc w)) in
  if negb isOpen then
    throw (FatalError "Attempting AddTerm() with no open stream.")
  else
    modify (on_doc (fun d =>
      set_postingCount ((m_postingCount d + 1) mod size_t_modulus)%N d));;
    let* d := gets doc in
    try_modify (on_ringBuffer
      (RingBuffer.PushBack
         (Term_new termText (m_currentStreamId d) (m_docFreqTable d))));;
    let* count := gets (fun w : World => RingBuffer.GetCount (m_ringBuffer (doc w))) in
    let* maxGramSize := gets (fun w : World => m_maxGramSize (doc w)) in
    if Nat.eqb count maxGramSize then
      ProcessNGrams;;
      try_modify (on_ringBuffer RingBuffer.PopFront)
    else ret tt.

(** [Document::CloseStream]. *)
Definition CloseStream : M World unit :=
  let* isOpen := gets (fun w : World => m_streamIsOpen (doc w)) in
  if negb isOpen then
    throw (FatalError "Attempting CloseStream() with no open stream.")
  else
    modify (on_doc (set_streamIsOpen false));;
    PurgeRingBuffer.

(** A whole stream: [OpenStream], one [AddTerm] per text, [CloseStream]. *)
Fixpoint AddTerms (texts : list string) : M World unit :=
  match texts with
  | [] => ret tt
  | t :: rest => AddTerm t;; AddTerms rest
  end.

Definition IngestStream (name : string) (texts : list string) : M World unit :=
  OpenStream name;; AddTerms texts;; CloseStream.

(** ** What a window emits, as plain lists

    The vocabulary the statements below use for the terms a window
    hands to [PostTerm]. *)

(** [term + x0], [term + x0 + x1], ... for [rest = [x0; x1; ...]]. *)
Fixpoint compose_from (table : DocFreqTable) (term : Term) (rest : list Term) : list Term :=
  match rest with
  | [] => []
  | x :: rest' =>
      let term' := Term_AddTerm table term x in
      term' :: compose_from table term' rest'
  end.

(** The n-grams anchored at position 0 of a window. *)
Definition window_ngrams (table : DocFreqTable) (items : list Term) : list Term :=
  match items with
  | [] => []
  | t0 :: rest => t0 :: compose_from table t0 rest
  end.

(** The windows a drain goes through: the buffer, then each of its
    proper suffixes. *)
Fixpoint drain_ngrams (table : DocFreqTable) (items : list Term) : list Term :=
  match items with
  | [] => []
  | t0 :: rest => window_ngrams table (t0 :: rest) ++ drain_ngrams table rest
  end.

(** The world after the terms [l] went through [PostTerm]. *)
Definition emit (l : list Term) (w : World) : World :=
  mkWorld
    (set_terms (TermSet_insert_all l (m_terms (doc w))) (doc w))
    (cout w ++ l).

(** The world with the ring buffer holding [its]. *)
Definition with_items (its : list Term) (w : World) : World :=
  on_doc (fun d =>
    set_ringBuffer (RingBuffer.mk (RingBuffer.capacity (m_ringBuffer d)) its) d) w.

Definition ring_items (w : World) : list Term := RingBuffer.items (m_ringBuffer (doc w)).
Definition ring_count (w : World) : nat := RingBuffer.GetCount (m_ringBuffer (doc w)).
Definition ring_capacity (w : World) : nat := RingBuffer.capacity (m_ringBuffer (doc w)).

(** The Document invariant: a gram size of at least one that fits the
    ring buffer, and a buffer that [AddTerm] left below the gram size. *)
Definition well_formed (w : World) : Prop :=
  1 <= m_maxGramSize (doc w) /\
  m_maxGramSize (doc w) <= ring_capacity w /\
  ring_count w < m_maxGramSize (doc w).

(** The calls a client can make on a Document. *)
Inductive call : Type :=
  | CallOpenStream (name : string)
  | CallAddTerm (termText : string)
  | CallCloseStream.

Definition run_call (c : call) : M World unit :=
  match c with
  | CallOpenStream name => OpenStream name
  | CallAddTerm termText => AddTerm termText
  | CallCloseStream => CloseStream
  end.

(** The worlds a client can bring a freshly constructed Document to;
    a call that throws leaves the client with the state at the throw. *)
Inductive reachable (config : IConfiguration) (capacity : nat) : World -> Prop :=
  | reachable_new uninit out :
      reachable config capacity (mkWorld (Document_new config capacity uninit) out)
  | reachable_call w c :
      reachable config capacity w ->
      reachable config capacity (snd (run_call c w)).

(** The world right after [++m_postingCount]. *)
Definition counted (w : World) : World :=
  on_doc (fun d =>
    set_postingCount ((m_postingCount d + 1) mod size_t_modulus)%N d) w.

(** The unigram [AddTerm] constructs in the ring buffer. *)
Definition unigram (termText : string) (w : World) : Term :=
  Term_new termText (m_currentStreamId (doc w)) (m_docFreqTable (doc w)).

(** A computation throws from [w]. *)
Definition throws {A} (m : M World A) (w : World) : Prop :=
  exists e, fst (m w) = Thrown e.

(** A computation throws a [FatalError] from [w]. *)
Definition throws_FatalError {A} (m : M World A) (w : World) : Prop :=
  exists msg, fst (m w) = Thrown (FatalError msg).

(** The value of [m_streamIsOpen] that a call refuses. *)
Definition refused_flag (c : call) : bool :=
  match c with
  | CallOpenStream _ => true
  | CallAddTerm _ | CallCloseStream => false
  end.

(** [n * (n + 1) / 2], by recursion. *)
Fixpoint triangle (n : nat) : nat :=
  match n with
  | O => 0
  | S n' => S n' + triangle n'
  end.

(** The world right after a successful [OpenStream]. *)
Definition opened (w : World) : World :=
  on_doc (fun d =>
    set_ringBuffer (RingBuffer.Reset (m_ringBuffer d))
      (set_currentStreamId 0 (set_streamIsOpen true d))) w.

(** ** Ingestor

    Only the class declaration, [src/Index/src/Ingestor.h], is among the
    sources; Ingestor.cpp, DocumentMap and the group tracking are not. *)
Module IDocument.

(** [IDocument], as far as [Ingestor::Add] reads it: the size of the
    source and the number of postings the document emits. *)
Record t : Type := {
  GetSourceByteSize : N;
  GetPostingCount : N
}.

End IDocument.

Module Ingestor.

Definition DocId : Type := N.
Definition GroupId : Type := N.

(** Where a document's postings live: (shardId, sliceIndex, rowOffset). *)
Definition Location : Type := (N * N * N)%type.

(** Modelled from the spec: DocumentMap (DocumentMap.h is missing) maps
    a DocId to its location; [Remove] marks the entry tombstoned and
    leaves reclamation to the recycler. *)
Record Entry : Type := {
  location : Location;
  tombstoned : bool
}.

Abbreviation DocumentMap := (gmap DocId Entry).

Definition live (e : Entry) : bool := negb (tombstoned e).

Definition DocumentMap_Contains (id : DocId) (m : DocumentMap) : bool :=
  match m !! id with
  | Some e => live e
  | None => false
  end.

Definition DocumentMap_Remove (id : DocId) (m : DocumentMap) : DocumentMap :=
  alter (fun e => {| location := location e; tombstoned := true |}) id m.

(** The members of [Ingestor] that the lifecycle operations touch.
    [m_documentCount] and [m_totalSourceByteSize] are declared
    [std::atomic<size_t>] in Ingestor.h: naturals below
    [size_t_modulus], and an increment wraps around there (see [Add]).

    Modelled from the spec: the posting counter behind
    [GetPostingCount], a [size_t] as well, and the group tracking (the
    open group with the DocIds added under it, and the sealed groups,
    newest first) have no declaration among the sources. *)
Record t : Type := mk {
  m_documentCount : N;
  m_totalSourceByteSize : N;
  m_postingCount : N;
  m_documentMap : DocumentMap;
  m_openGroup : option (GroupId * list DocId);
  m_closedGroups : list (GroupId * list DocId)
}.

Definition new : t :=
  {| m_documentCount := 0; m_totalSourceByteSize := 0; m_postingCount := 0;
     m_documentMap := ∅; m_openGroup := None; m_closedGroups := [] |}.

(** [Ingestor::Contains]. *)
Definition Contains (id : DocId) (s : t) : bool :=
  DocumentMap_Contains id (m_documentMap s).

Definition GetDocumentCount (s : t) : N := m_documentCount s.
Definition GetTotalSouceBytesIngested (s : t) : N := m_totalSourceByteSize s.
Definition GetPostingCount (s : t) : N := m_postingCount s.

Definition record_member (id : DocId) (g : option (GroupId * list DocId))
    : option (GroupId * list DocId) :=
  match g with
  | Some (gid, members) => Some (gid, members ++ [id])
  | None => None
  end.

(** Modelled from the spec: [Ingestor::Add] (Ingestor.cpp is missing).
    Fatal on a live duplicate; otherwise a shard with capacity is
    chosen, the document ingested, its location recorded, the three
    counters incremented and the DocId recorded under the open group.
    The counters are [size_t]: each sum is taken modulo
    [size_t_modulus].  The shard collaborator's answer is the argument
    [handle]: [None] when no shard has capacity, which the header
    documents as a throw. *)
Definition Add (id : DocId) (document : IDocument.t) (handle : option Location)
    : M t unit :=
  let* present := gets (Contains id) in
  if present then throw (FatalError "duplicate document")
  else
    match handle with
    | None => throw (CapacityError "no space to add the document")
    | Some loc =>
        modify (fun s =>
          {| m_documentCount := (m_documentCount s + 1) mod size_t_modulus;
             m_totalSourceByteSize :=
               (m_totalSourceByteSize s + IDocument.GetSourceByteSize document)
               mod size_t_modulus;
             m_postingCount :=
               (m_postingCount s + IDocument.GetPostingCount document)
               mod size_t_modulus;
             m_documentMap :=
               <[id := {| location := loc; tombstoned := false |}]>
                 (m_documentMap s);
             m_openGroup := record_member id (m_openGroup s);
             m_closedGroups := m_closedGroups s |})%N
    end.

(** Modelled from the spec: [Ingestor::Delete] (Ingestor.cpp is
    missing).  Under the delete lock: if the document is live, mark it
    tombstoned, decrement [documentCount] and return true; otherwise
    return false. *)
Definition Delete (id : DocId) : M t bool :=
  let* present := gets (Contains id) in
  if present then
    modify (fun s =>
      {| m_documentCount := N.pred (m_documentCount s);
         m_totalSourceByteSize := m_totalSourceByteSize s;
         m_postingCount := m_postingCount s;
         m_documentMap := DocumentMap_Remove id (m_documentMap s);
         m_openGroup := m_openGroup s;
         m_closedGroups := m_closedGroups s |});;
    ret true
  else ret false.

Definition set_groups (open : option (GroupId * list DocId))
    (closed : list (GroupId * list DocId)) (s : t) : t :=
  {| m_documentCount := m_documentCount s;
     m_totalSourceByteSize := m_totalSourceByteSize s;
     m_postingCount := m_postingCount s;
     m_documentMap := m_documentMap s;
     m_openGroup := open;
     m_closedGroups := closed |}.

(** Modelled from the spec: [Ingestor::CloseGroup] (Ingestor.cpp is
    missing): seals the open group, a no-op when none is open. *)
Definition CloseGroup : M t unit :=
  modify (fun s =>
    match m_openGroup s with
    | Some g => set_groups None (g :: m_closedGroups s) s
    | None => s
    end).

Definition named (groupId : GroupId) (g : GroupId * list DocId) : bool :=
  N.eqb (fst g) groupId.

(** Modelled from the spec: [Ingestor::OpenGroup] (Ingestor.cpp is
    missing).  "Fails if a group is already open (must CloseGroup
    first); transitions to GroupOpen and begins recording subsequent
    Add calls under id."  A sealed group's membership is immutable, and
    the declaration in Ingestor.h says that a closed group cannot be
    reopened: an id that names a sealed group is refused as well.  Both
    failures are fatal, as every error of this core is.  The same
    declaration's comment, "The previous group is closed", is taken as
    the state the call requires, which is the spec's reading; with no
    body among the sources the other reading, that the call itself
    closes the group, cannot be excluded. *)
Definition OpenGroup (groupId : GroupId) : M t unit :=
  let* s := gets (fun s : t => s) in
  match m_openGroup s with
  | Some _ => throw (FatalError "group already open")
  | None =>
      if existsb (named groupId) (m_closedGroups s)
      then throw (FatalError "closed group cannot be reopened")
      else modify (set_groups (Some (groupId, [])) (m_closedGroups s))
  end.

Fixpoint DeleteAll (ids : list DocId) : M t unit :=
  match ids with
  | [] => ret tt
  | id :: rest => Delete id;; DeleteAll rest
  end.

(** Modelled from the spec: [Ingestor::ExpireGroup] (Ingestor.cpp is
    missing).  Fails when the id names the open group or no sealed
    group; otherwise every recorded member is deleted and the
    membership record dropped. *)
Definition ExpireGroup (groupId : GroupId) : M t unit :=
  let* s := gets (fun s : t => s) in
  let sealed := filter (fun g => named groupId g = true) (m_closedGroups s) in
  let isOpen :=
    match m_openGroup s with
    | Some g => named groupId g
    | None => false
    end in
  if isOpen then throw (FatalError "group not closed")
  else
    match sealed with
    | [] => throw (FatalError "group not closed")
    | _ =>
        DeleteAll (concat (snd <$> sealed));;
        modify (fun s =>
          set_groups (m_openGroup s)
            (filter (fun g => named groupId g = false) (m_closedGroups s)) s)
    end.

Definition FactHandle : Type := N.

(** Modelled from the spec: the Ingestor with what [AssertFact] and
    [Shutdown] act on besides its own members: the fact registry (the
    IFactSet, read only here), the fact values recorded per document
    (they live in the shards' rows), and whether the index has been
    shut down. *)
Record System : Type := mkSystem {
  ingestor : t;
  registeredFacts : gset FactHandle;
  facts : gmap (DocId * FactHandle) bool;
  isShutdown : bool
}.

(** An operation on the Ingestor's own members, within the system. *)
Definition on_ingestor {A} (m : M t A) : M System A :=
  fun sys =>
    let (o, s') := m (ingestor sys) in
    (o, mkSystem s' (registeredFacts sys) (facts sys) (isShutdown sys)).

(** Modelled from the spec: [Ingestor::AssertFact] (Ingestor.cpp is
    missing).  Fatal if the FactHandle was not registered in the fact
    registry, or if the DocId is not live; otherwise the value is
    recorded against the document. *)
Definition AssertFact (id : DocId) (fact : FactHandle) (value : bool) : M System unit :=
  let* sys := gets (fun sys : System => sys) in
  if negb (bool_decide (fact ∈ registeredFacts sys)) then
    throw (FatalError "fact not registered")
  else if negb (Contains id (ingestor sys)) then
    throw (FatalError "document not live")
  else
    modify (fun sys =>
      mkSystem (ingestor sys) (registeredFacts sys)
               (<[(id, fact) := value]> (facts sys)) (isShutdown sys)).

(** Modelled from the spec: [Ingestor::Shutdown] (Ingestor.cpp is
    missing) "halts acceptance of new mutating operations"; the
    resources it releases are not modelled. *)
Definition Shutdown : M System unit :=
  modify (fun sys =>
    mkSystem (ingestor sys) (registeredFacts sys) (facts sys) true).

(** Modelled from the spec: a mutating operation issued after
    [Shutdown] is not accepted: it fails and changes nothing. *)
Definition accepted {A} (m : M System A) : M System A :=
  fun sys =>
    if isShutdown sys
    then (Thrown (FatalError "Ingestor has been shut down"), sys)
    else m sys.

(** The mutating operations of Ingestor.h, as a client issues them. *)
Inductive op : Type :=
  | OpAdd (id : DocId) (document : IDocument.t) (handle : option Location)
  | OpDelete (id : DocId)
  | OpAssertFact (id : DocId) (fact : FactHandle) (value : bool)
  | OpOpenGroup (groupId : GroupId)
  | OpCloseGroup
  | OpExpireGroup (groupId : GroupId)
  | OpShutdown.

Definition run_op (o : op) : M System unit :=
  match o with
  | OpAdd id document handle => accepted (on_ingestor (Add id document handle))
  | OpDelete id => accepted (on_ingestor (Delete id;; ret tt))
  | OpAssertFact id fact value => accepted (AssertFact id fact value)
  | OpOpenGroup g => accepted (on_ingestor (OpenGroup g))
  | OpCloseGroup => accepted (on_ingestor CloseGroup)
  | OpExpireGroup g => accepted (on_ingestor (ExpireGroup g))
  | OpShutdown => Shutdown
  end.

(** A sequence of operations; one that throws leaves the state at the
    throw and the client goes on. *)
Definition run_ops (ops : list op) (sys : System) : System :=
  foldl (fun sys o => snd (run_op o sys)) sys ops.





(** The number of live entries of the DocumentMap. *)
Definition live_count (s : t) : N :=
  N.of_nat (size (filter (fun kv => live (snd kv) = true) (m_documentMap s))).

(** An operation throws from [s]. *)
Definition throws_from {A} (m : M t A) (s : t) : Prop :=
  exists e, fst (m s) = Thrown e.

(** The invariant of the aggregate: [documentCount] is the number of
    DocIds for which [Contains] holds. *)
Definition count_is_live (s : t) : Prop := m_documentCount s = live_count s.

(** The state after [Delete] tombstoned a live [id]. *)
Definition deleted (id : DocId) (s : t) : t :=
  {| m_documentCount := N.pred (m_documentCount s);
     m_totalSourceByteSize := m_totalSourceByteSize s;
     m_postingCount := m_postingCount s;
     m_documentMap := DocumentMap_Remove id (m_documentMap s);
     m_openGroup := m_openGroup s;
     m_closedGroups := m_closedGroups s |}.

End Ingestor.


(** ** Further vocabulary: whole streams and [Ingest] *)

(** The n-grams of order at most [k] of a term sequence, by starting
    position: for each position, the compositions of the up to [k]
    terms that start there. *)
Fixpoint stream_ngrams (k : nat) (table : DocFreqTable) (l : list Term) : list Term :=
  match l with
  | [] => []
  | t0 :: rest =>
      window_ngrams table (take k (t0 :: rest)) ++ stream_ngrams k table rest
  end.

(** The unigrams [AddTerm] builds for the texts of a stream with id
    [stream]. *)
Definition unigrams (table : DocFreqTable) (stream : N) (texts : list string) : list Term :=
  (fun termText => Term_new termText stream table) <$> texts.

(** [t] is the composition of at most [k] consecutive terms of [l]. *)
Definition is_ngram_of (k : nat) (table : DocFreqTable) (l : list Term) (t : Term) : Prop :=
  exists pre t0 mid post,
    l = pre ++ t0 :: mid ++ post /\
    length mid < k /\
    t = foldl (Term_AddTerm table) t0 mid.

(** The number of terms a stream of [L] texts hands to [PostTerm]:
    [k] per full window, then the shrinking windows of the drain. *)
Definition posted_count (k L : nat) : nat :=
  k * (L - Nat.min L (k - 1)) + triangle (Nat.min L (k - 1)).

(** A client's calls in sequence; one that throws leaves the state at
    the throw and the client goes on. *)
Definition run_calls (calls : list call) (w : World) : World :=
  foldl (fun w c => snd (run_call c w)) w calls.

(** What [Document::Ingest] writes to [std::cout]. *)
Inductive cout_item : Type :=
  | cout_text (s : string)
  | cout_size (n : nat)
  | cout_endl.

(** [DocumentHandle], as far as [Ingest] uses it: [AddPosting], here a
    handle that records the postings it is given, oldest first. *)
Definition DocumentHandle : Type := list Term.

Definition AddPosting (term : Term) (handle : DocumentHandle) : DocumentHandle :=
  handle ++ [term].

(** [Document::Ingest], a const method: the lines it prints and the
    handle after the loop over [m_terms].  The container's iteration
    order is the map's. *)
Definition Ingest (d : Document) (handle : DocumentHandle)
    : list cout_item * DocumentHandle :=
  ([cout_text "Document::Ingest()"; cout_endl;
    cout_text "  "; cout_size (GetPostingCount d); cout_text " postings"; cout_endl;
    cout_text "====================="; cout_endl],
   foldl (fun h kv => AddPosting (snd kv) h) handle (map_to_list (m_terms d))).

(** * Proofs *)

(** ** The monad *)

Lemma bind_returned {S A B} (m : M S A) (k : A -> M S B) s a s' :
  m s = (Returned a, s') -> bind m k s = k a s'.
Proof. intros H. unfold bind. now rewrite H. Qed.

Lemma bind_thrown {S A B} (m : M S A) (k : A -> M S B) s e s' :
  m s = (Thrown e, s') -> bind m k s = (Thrown e, s').
Proof. intros H. unfold bind. now rewrite H. Qed.

(** ** The term set *)

Section TermSetFacts.
Implicit Types (s : TermSet) (t : Term) (l : list Term).

Lemma TermSet_insert_dom t s :
  dom (TermSet_insert t s) = {[Term_key t]} ∪ dom s.
Proof.
  unfold TermSet_insert. destruct (s !! Term_key t) eqn:E.
  - assert (Term_key t ∈ dom s) as Hin by (apply elem_of_dom; eauto).
    revert Hin. generalize (dom s). intros D HD.
    apply set_eq. intros k. rewrite elem_of_union, elem_of_singleton.
    split; [tauto | intros [-> | ?]; assumption].
  - apply dom_insert_L.
Qed.

Lemma TermSet_insert_present t s :
  TermSet_contains t s -> TermSet_insert t s = s.
Proof. intros [x Hx]. unfold TermSet_insert. now rewrite Hx. Qed.

Lemma TermSet_insert_size t s :
  size s <= size (TermSet_insert t s) <= S (size s).
Proof.
  unfold TermSet_insert. destruct (s !! Term_key t) eqn:E; [lia|].
  rewrite map_size_insert_None by done. lia.
Qed.

Lemma TermSet_insert_all_cons t l s :
  TermSet_insert_all (t :: l) s = TermSet_insert_all l (TermSet_insert t s).
Proof. reflexivity. Qed.

Lemma TermSet_insert_all_app l1 l2 s :
  TermSet_insert_all (l1 ++ l2) s = TermSet_insert_all l2 (TermSet_insert_all l1 s).
Proof. unfold TermSet_insert_all. apply foldl_app. Qed.

Lemma TermSet_insert_all_dom l s :
  dom (TermSet_insert_all l s) = list_to_set (Term_key <$> l) ∪ dom s.
Proof.
  revert s. induction l as [|t l IH]; intros s.
  - simpl. set_solver.
  - rewrite TermSet_insert_all_cons, IH, TermSet_insert_dom. set_solver.
Qed.

Lemma TermSet_insert_all_size l s :
  size s <= size (TermSet_insert_all l s) <= size s + length l.
Proof.
  revert s. induction l as [|t l IH]; intros s; [simpl; lia|].
  rewrite TermSet_insert_all_cons. specialize (IH (TermSet_insert t s)).
  pose proof (TermSet_insert_size t s). simpl. lia.
Qed.

Lemma TermSet_of_list_dom l :
  dom (TermSet_of_list l) = list_to_set (Term_key <$> l).
Proof. unfold TermSet_of_list. rewrite TermSet_insert_all_dom. set_solver. Qed.
End TermSetFacts.

(** ** Emitting *)

Lemma PostTerm_eq term w : PostTerm term w = (Returned tt, emit [term] w).
Proof. reflexivity. Qed.

Lemma emit_app l1 l2 w : emit l2 (emit l1 w) = emit (l1 ++ l2) w.
Proof.
  unfold emit. simpl. rewrite TermSet_insert_all_app, app_assoc. reflexivity.
Qed.

Lemma emit_nil w : emit [] w = w.
Proof. destruct w as [[] ?]. unfold emit. simpl. now rewrite app_nil_r. Qed.

Lemma compose_from_length table term rest :
  length (compose_from table term rest) = length rest.
Proof.
  revert term. induction rest as [|x rest IH]; intros term; simpl; [done|].
  now rewrite IH.
Qed.

Lemma compose_from_lookup table term rest i :
  i < length rest ->
  compose_from table term rest !! i
  = Some (foldl (Term_AddTerm table) term (take (S i) rest)).
Proof.
  revert term i. induction rest as [|x rest IH]; intros term i Hi; simpl in *; [lia|].
  destruct i as [|i]; simpl; [reflexivity|].
  apply IH. lia.
Qed.

Lemma window_ngrams_length table items :
  length (window_ngrams table items) = length items.
Proof. destruct items; simpl; [done|]. now rewrite compose_from_length. Qed.

Lemma window_ngrams_lookup table t0 rest i :
  i <= length rest ->
  window_ngrams table (t0 :: rest) !! i
  = Some (foldl (Term_AddTerm table) t0 (take i rest)).
Proof.
  intros Hi. destruct i as [|i]; simpl; [reflexivity|].
  apply compose_from_lookup. lia.
Qed.

(** ** ProcessNGrams *)

Lemma ProcessNGrams_for_eq rest : forall pre term w,
  ring_items w = pre ++ rest ->
  ProcessNGrams_for (length rest) (length pre) term w
  = (Returned tt, emit (compose_from (m_docFreqTable (doc w)) term rest) w).
Proof.
  induction rest as [|x rest IH]; intros pre term w Hw; simpl.
  - now rewrite emit_nil.
  - unfold bind at 1. simpl. unfold RingBuffer.index.
    unfold ring_items in Hw. rewrite Hw.
    rewrite lookup_app_r, Nat.sub_diag by lia. simpl.
    erewrite bind_returned by apply PostTerm_eq.
    replace (S (length pre)) with (length (pre ++ [x])) by (rewrite length_app; simpl; lia).
    rewrite IH.
    + simpl. now rewrite emit_app.
    + unfold ring_items. simpl. rewrite Hw. now rewrite <- app_assoc.
Qed.

Lemma ProcessNGrams_eq w t0 rest :
  ring_items w = t0 :: rest ->
  ProcessNGrams w
  = (Returned tt, emit (window_ngrams (m_docFreqTable (doc w)) (t0 :: rest)) w).
Proof.
  intros Hw. unfold ProcessNGrams. unfold bind at 1. simpl.
  unfold RingBuffer.GetCount. unfold ring_items in Hw. rewrite Hw. simpl.
  unfold bind at 1. simpl. unfold RingBuffer.index. rewrite Hw. simpl.
  erewrite bind_returned by apply PostTerm_eq.
  rewrite Nat.sub_0_r.
  change 1 with (length [t0]).
  rewrite (ProcessNGrams_for_eq rest [t0]).
  - simpl. now rewrite emit_app.
  - unfold ring_items. simpl. now rewrite Hw.
Qed.

Lemma ProcessNGrams_empty w :
  ring_items w = [] ->
  ProcessNGrams w = (Thrown (LogAssertFailed "count > 0"), w).
Proof.
  intros Hw. unfold ProcessNGrams. unfold bind at 1. simpl.
  unfold RingBuffer.GetCount. unfold ring_items in Hw. now rewrite Hw.
Qed.

(** ** Popping and draining *)

(** Reduce the projections of a world built by the updates above. *)
Ltac fields :=
  unfold opened, counted, with_items, emit, on_doc, set_ringBuffer, set_terms,
    set_postingCount, set_streamIsOpen, set_currentStreamId, ring_items,
    ring_count, ring_capacity, unigram, RingBuffer.Reset, RingBuffer.GetCount in *;
  cbn [doc cout m_maxGramSize m_docFreqTable m_postingCount m_streamIsOpen
       m_currentStreamId m_ringBuffer m_terms RingBuffer.capacity
       RingBuffer.items fst snd] in *.

Lemma drain_ngrams_cons table t0 rest :
  drain_ngrams table (t0 :: rest)
  = window_ngrams table (t0 :: rest) ++ drain_ngrams table rest.
Proof. reflexivity. Qed.

Lemma with_items_same w : with_items (ring_items w) w = w.
Proof. destruct w as [[? ? ? ? ? [] ?] ?]. reflexivity. Qed.

Lemma PopFront_eq w t0 rest :
  ring_items w = t0 :: rest ->
  try_modify (on_ringBuffer RingBuffer.PopFront) w = (Returned tt, with_items rest w).
Proof.
  intros Hw. unfold try_modify, on_ringBuffer, RingBuffer.PopFront.
  unfold ring_items in Hw. now rewrite Hw.
Qed.

Lemma PopFront_empty w :
  ring_items w = [] ->
  try_modify (on_ringBuffer RingBuffer.PopFront) w
  = (Thrown (LogAssertFailed "RingBuffer::PopFront: count > 0"), w).
Proof.
  intros Hw. unfold try_modify, on_ringBuffer, RingBuffer.PopFront.
  unfold ring_items in Hw. now rewrite Hw.
Qed.

Lemma PurgeRingBuffer_while_eq items : forall fuel w,
  ring_items w = items ->
  length items <= fuel ->
  PurgeRingBuffer_while fuel w
  = (Returned tt,
     with_items [] (emit (drain_ngrams (m_docFreqTable (doc w)) items) w)).
Proof.
  induction items as [|t0 rest IH]; intros fuel w Hw Hfuel.
  - assert (PurgeRingBuffer_while fuel w = (Returned tt, w)) as ->.
    { destruct fuel; simpl; unfold bind, gets, RingBuffer.IsEmpty, RingBuffer.GetCount;
        unfold ring_items in Hw; now rewrite Hw. }
    simpl. rewrite emit_nil. rewrite <- Hw. now rewrite with_items_same.
  - destruct fuel as [|fuel]; simpl in Hfuel; [lia|].
    simpl. unfold bind at 1. unfold gets at 1.
    unfold RingBuffer.IsEmpty, RingBuffer.GetCount.
    pose proof Hw as Hw'. unfold ring_items in Hw'. rewrite Hw'. simpl.
    rewrite (bind_returned _ _ _ _ _ (ProcessNGrams_eq w t0 rest Hw)).
    rewrite (bind_returned _ _ _ _ _ (PopFront_eq (emit _ w) t0 rest Hw)).
    rewrite (IH fuel) by (reflexivity || lia).
    change (t0 :: compose_from (m_docFreqTable (doc w)) t0 rest
              ++ drain_ngrams (m_docFreqTable (doc w)) rest)
      with (window_ngrams (m_docFreqTable (doc w)) (t0 :: rest)
              ++ drain_ngrams (m_docFreqTable (doc w)) rest).
    fields. now rewrite TermSet_insert_all_app, app_assoc.
Qed.

Lemma PurgeRingBuffer_eq w :
  PurgeRingBuffer w
  = (Returned tt,
     with_items [] (emit (drain_ngrams (m_docFreqTable (doc w)) (ring_items w)) w)).
Proof.
  unfold PurgeRingBuffer. unfold bind at 1. unfold gets at 1.
  apply PurgeRingBuffer_while_eq; [reflexivity|]. reflexivity.
Qed.

Lemma drain_ngrams_length table items :
  length (drain_ngrams table items) = triangle (length items).
Proof.
  induction items as [|t0 rest IH]; simpl; [done|].
  now rewrite length_app, compose_from_length, IH.
Qed.

Lemma triangle_closed n : 2 * triangle n = n * (n + 1).
Proof. induction n as [|n IH]; simpl; lia. Qed.

(** A composition of consecutive buffer elements is among the drained
    n-grams, wherever it starts and ends. *)
Lemma compose_from_prefix table term mid post :
  mid <> [] ->
  foldl (Term_AddTerm table) term mid ∈ compose_from table term (mid ++ post).
Proof.
  revert term. induction mid as [|x mid IH]; intros term Hne; [done|].
  simpl. destruct mid as [|y mid].
  - simpl. apply list_elem_of_here.
  - apply list_elem_of_further. apply IH. done.
Qed.

Lemma window_ngrams_prefix table t0 mid post :
  foldl (Term_AddTerm table) t0 mid ∈ window_ngrams table (t0 :: mid ++ post).
Proof.
  simpl. destruct mid as [|x mid].
  - apply list_elem_of_here.
  - apply list_elem_of_further. now apply compose_from_prefix.
Qed.

Lemma drain_ngrams_contiguous table pre t0 mid post :
  foldl (Term_AddTerm table) t0 mid
  ∈ drain_ngrams table (pre ++ t0 :: mid ++ post).
Proof.
  induction pre as [|p pre IH].
  - change (drain_ngrams table ([] ++ t0 :: mid ++ post))
      with (window_ngrams table (t0 :: mid ++ post)
            ++ drain_ngrams table (mid ++ post)).
    apply elem_of_app. left. apply window_ngrams_prefix.
  - change (drain_ngrams table ((p :: pre) ++ t0 :: mid ++ post))
      with (window_ngrams table (p :: pre ++ t0 :: mid ++ post)
            ++ drain_ngrams table (pre ++ t0 :: mid ++ post)).
    apply elem_of_app. now right.
Qed.

(** ** The three stream operations, case by case *)


(** ** The three stream operations, case by case *)

Lemma OpenStream_closed name w :
  m_streamIsOpen (doc w) = false ->
  OpenStream name w = (Returned tt, opened w).
Proof.
  intros Hc. unfold OpenStream. unfold bind at 1. unfold gets at 1.
  now rewrite Hc.
Qed.

Lemma OpenStream_open name w :
  m_streamIsOpen (doc w) = true ->
  OpenStream name w
  = (Thrown (FatalError "Attempting OpenStream() when another stream is open."), w).
Proof.
  intros Ho. unfold OpenStream. unfold bind at 1. unfold gets at 1.
  now rewrite Ho.
Qed.

Lemma AddTerm_closed termText w :
  m_streamIsOpen (doc w) = false ->
  AddTerm termText w
  = (Thrown (FatalError "Attempting AddTerm() with no open stream."), w).
Proof.
  intros Hc. unfold AddTerm. unfold bind at 1. unfold gets at 1.
  now rewrite Hc.
Qed.

(** With room in the ring buffer, an [AddTerm] on an open stream pushes
    the unigram and, when that fills the window, emits the window's
    n-grams and pops the oldest element. *)
Lemma AddTerm_open termText w :
  m_streamIsOpen (doc w) = true ->
  ring_count w <> ring_capacity w ->
  AddTerm termText w
  = (Returned tt,
     let items := ring_items w ++ [unigram termText w] in
     if Nat.eqb (length items) (m_maxGramSize (doc w))
     then with_items (tail items)
            (emit (window_ngrams (m_docFreqTable (doc w)) items) (counted w))
     else with_items items (counted w)).
Proof.
  intros Ho Hroom. unfold AddTerm. unfold bind at 1. unfold gets at 1.
  rewrite Ho. cbn [negb].
  unfold bind at 1. unfold modify at 1. fold (counted w).
  unfold bind at 1. unfold gets at 1.
  unfold bind at 1. unfold try_modify at 1, on_ringBuffer, RingBuffer.PushBack.
  destruct (Nat.eqb_spec (RingBuffer.GetCount (m_ringBuffer (doc (counted w))))
              (RingBuffer.capacity (m_ringBuffer (doc (counted w))))) as [E|_].
  { fields. congruence. }
  unfold bind at 1. unfold gets at 1.
  unfold bind at 1. unfold gets at 1.
  cbv zeta.
  change (RingBuffer.GetCount (m_ringBuffer (doc (on_doc _ (counted w)))))
    with (length (ring_items w ++ [unigram termText w])).
  change (m_maxGramSize (doc (on_doc _ (counted w)))) with (m_maxGramSize (doc w)).
  destruct (Nat.eqb (length (ring_items w ++ [unigram termText w]))
              (m_maxGramSize (doc w))); [|reflexivity].
  destruct (ring_items w ++ [unigram termText w]) as [|t0 rest] eqn:Eits.
  { destruct (ring_items w); discriminate. }
  erewrite bind_returned.
  2:{ apply (ProcessNGrams_eq _ t0 rest). fields. exact Eits. }
  rewrite (PopFront_eq _ t0 rest) by (fields; exact Eits).
  reflexivity.
Qed.

(** At capacity the push fails, after the counter was incremented. *)
Lemma AddTerm_full termText w :
  m_streamIsOpen (doc w) = true ->
  ring_count w = ring_capacity w ->
  AddTerm termText w
  = (Thrown (LogAssertFailed "RingBuffer::PushBack: count < capacity"), counted w).
Proof.
  intros Ho Hfull. unfold AddTerm. unfold bind at 1. unfold gets at 1.
  rewrite Ho. cbn [negb].
  unfold bind at 1. unfold modify at 1. fold (counted w).
  unfold bind at 1. unfold gets at 1.
  unfold bind at 1. unfold try_modify at 1, on_ringBuffer, RingBuffer.PushBack.
  destruct (Nat.eqb_spec (RingBuffer.GetCount (m_ringBuffer (doc (counted w))))
              (RingBuffer.capacity (m_ringBuffer (doc (counted w))))) as [_|E].
  - reflexivity.
  - fields. congruence.
Qed.

Lemma CloseStream_closed w :
  m_streamIsOpen (doc w) = false ->
  CloseStream w
  = (Thrown (FatalError "Attempting CloseStream() with no open stream."), w).
Proof.
  intros Hc. unfold CloseStream. unfold bind at 1. unfold gets at 1.
  now rewrite Hc.
Qed.

Lemma CloseStream_open w :
  m_streamIsOpen (doc w) = true ->
  CloseStream w
  = (Returned tt,
     with_items []
       (emit (drain_ngrams (m_docFreqTable (doc w)) (ring_items w))
          (on_doc (set_streamIsOpen false) w))).
Proof.
  intros Ho. unfold CloseStream. unfold bind at 1. unfold gets at 1.
  rewrite Ho. cbn [negb].
  unfold bind at 1. unfold modify at 1.
  now rewrite PurgeRingBuffer_eq.
Qed.

(** ** The invariant and what one call does to it *)

Lemma well_formed_opened w :
  1 <= m_maxGramSize (doc w) <= ring_capacity w -> well_formed (opened w).
Proof. unfold well_formed. fields. simpl. lia. Qed.

Lemma well_formed_new config capacity uninit out :
  1 <= GetMaxGramSize config <= capacity ->
  well_formed (mkWorld (Document_new config capacity uninit) out).
Proof. unfold well_formed. fields. simpl. lia. Qed.

(** What [AddTerm] on an open stream establishes, in one place. *)
Lemma AddTerm_step termText w :
  well_formed w ->
  m_streamIsOpen (doc w) = true ->
  let k := m_maxGramSize (doc w) in
  let w' := snd (AddTerm termText w) in
  fst (AddTerm termText w) = Returned tt /\
  well_formed w' /\
  m_streamIsOpen (doc w') = true /\
  m_maxGramSize (doc w') = k /\
  m_docFreqTable (doc w') = m_docFreqTable (doc w) /\
  m_currentStreamId (doc w') = m_currentStreamId (doc w) /\
  ring_capacity w' = ring_capacity w /\
  ring_count w' = Nat.min (ring_count w + 1) (k - 1) /\
  size (m_terms (doc w')) + k * ring_count w'
    <= size (m_terms (doc w)) + k * ring_count w + k /\
  dom (m_terms (doc w)) ⊆ dom (m_terms (doc w')) /\
  (forall x, x ∈ ring_items w ++ [unigram termText w] ->
     Term_key x ∈ dom (m_terms (doc w')) \/ x ∈ ring_items w').
Proof.
  intros (Hk & Hcap & Hcount) Ho k w'. subst w'.
  rewrite AddTerm_open by (assumption || (unfold ring_count, ring_capacity in *; lia)).
  cbv zeta. cbn [fst snd].
  set (items := ring_items w ++ [unigram termText w]).
  assert (length items = ring_count w + 1) as Hlen.
  { subst items. rewrite length_app. reflexivity. }
  destruct (Nat.eqb_spec (length items) (m_maxGramSize (doc w))) as [E|E].
  - destruct items as [|t0 rest] eqn:Eits; [simpl in Hlen; lia|].
    unfold well_formed. fields. cbn [tail].
    simpl in E, Hlen. fold k in E, Hk, Hcap, Hcount |- *.
    pose proof (TermSet_insert_all_size
                  (window_ngrams (m_docFreqTable (doc w)) (t0 :: rest))
                  (m_terms (doc w))) as Hsize.
    rewrite window_ngrams_length in Hsize. cbn [length] in Hsize.
    assert (length rest = length (RingBuffer.items (m_ringBuffer (doc w)))) as Hrest
      by lia.
    rewrite Hrest in *.
    repeat split; try reflexivity; try assumption; try lia.
    + rewrite TermSet_insert_all_dom. set_solver.
    + intros x Hx. apply elem_of_cons in Hx as [-> | Hx]; [left|now right].
      rewrite TermSet_insert_all_dom. simpl. set_solver.
  - unfold well_formed. fields. fold k in E, Hk, Hcap, Hcount |- *.
    fold items. repeat split; try reflexivity; try assumption; try lia.
    intros x Hx. now right.
Qed.

Lemma well_formed_run_call c w :
  well_formed w -> well_formed (snd (run_call c w)).
Proof.
  intros Hwf. destruct c as [name|termText|]; simpl.
  - destruct (m_streamIsOpen (doc w)) eqn:Ho.
    + now rewrite OpenStream_open.
    + rewrite OpenStream_closed by done. apply well_formed_opened.
      destruct Hwf as (? & ? & ?). lia.
  - destruct (m_streamIsOpen (doc w)) eqn:Ho.
    + now apply AddTerm_step.
    + now rewrite AddTerm_closed.
  - destruct (m_streamIsOpen (doc w)) eqn:Ho.
    + rewrite CloseStream_open by done. destruct Hwf as (? & ? & ?).
      unfold well_formed. fields. simpl. lia.
    + now rewrite CloseStream_closed.
Qed.

Lemma reachable_well_formed config capacity w :
  1 <= GetMaxGramSize config <= capacity ->
  reachable config capacity w -> well_formed w.
Proof.
  intros Hcfg Hr. induction Hr as [uninit out|w c _ IH].
  - now apply well_formed_new.
  - now apply well_formed_run_call.
Qed.

(** The entry checks, for every world: a call throws a FatalError
    exactly on the flag it refuses, and then nothing was written. *)
Lemma run_call_FatalError c w :
  (m_streamIsOpen (doc w) = refused_flag c ->
   exists msg, run_call c w = (Thrown (FatalError msg), w)) /\
  (m_streamIsOpen (doc w) <> refused_flag c ->
   ~ throws_FatalError (run_call c) w).
Proof.
  unfold throws_FatalError.
  destruct c as [name|termText|]; cbn [run_call refused_flag];
    destruct (m_streamIsOpen (doc w)) eqn:Ho; (split; [intros Hf | intros Hf [msg Hm]]);
    try discriminate; try congruence.
  - rewrite (OpenStream_open name w Ho). eauto.
  - now rewrite (OpenStream_closed name w Ho) in Hm.
  - destruct (decide (ring_count w = ring_capacity w)) as [Hfull|Hroom].
    + now rewrite (AddTerm_full termText w Ho Hfull) in Hm.
    + now rewrite (AddTerm_open termText w Ho Hroom) in Hm.
  - rewrite (AddTerm_closed termText w Ho). eauto.
  - now rewrite (CloseStream_open w Ho) in Hm.
  - rewrite (CloseStream_closed w Ho). eauto.
Qed.

(** A call from a well-formed world either returns, keeping the
    invariant and moving the flag, or throws a FatalError at its entry
    check and changes nothing. *)
Lemma run_call_cases c w :
  well_formed w ->
  (fst (run_call c w) = Returned tt /\
   well_formed (snd (run_call c w)) /\
   m_streamIsOpen (doc (snd (run_call c w)))
     = match c with CallCloseStream => false | _ => true end /\
   m_streamIsOpen (doc w)
     = match c with CallOpenStream _ => false | _ => true end)
  \/
  (exists msg,
     fst (run_call c w) = Thrown (FatalError msg) /\
     snd (run_call c w) = w /\
     m_streamIsOpen (doc w)
       = match c with CallOpenStream _ => true | _ => false end).
Proof.
  intros Hwf. pose proof (well_formed_run_call c w Hwf) as Hwf'.
  destruct c as [name|termText|]; simpl in *;
    destruct (m_streamIsOpen (doc w)) eqn:Ho.
  - right. rewrite (OpenStream_open name w Ho). eauto.
  - left. rewrite (OpenStream_closed name w Ho) in *. done.
  - left. pose proof (AddTerm_step termText w Hwf Ho) as (? & ? & ? & _). done.
  - right. rewrite (AddTerm_closed termText w Ho). eauto.
  - left. rewrite (CloseStream_open w Ho) in *. done.
  - right. rewrite (CloseStream_closed w Ho). eauto.
Qed.

(** ** A run of [AddTerm]s *)

Lemma AddTerms_run texts : forall w,
  well_formed w ->
  m_streamIsOpen (doc w) = true ->
  let k := m_maxGramSize (doc w) in
  let w' := snd (AddTerms texts w) in
  fst (AddTerms texts w) = Returned tt /\
  well_formed w' /\
  m_streamIsOpen (doc w') = true /\
  m_maxGramSize (doc w') = k /\
  m_docFreqTable (doc w') = m_docFreqTable (doc w) /\
  m_currentStreamId (doc w') = m_currentStreamId (doc w) /\
  ring_capacity w' = ring_capacity w /\
  ring_count w' = Nat.min (ring_count w + length texts) (k - 1) /\
  size (m_terms (doc w')) + k * ring_count w'
    <= size (m_terms (doc w)) + k * ring_count w + k * length texts /\
  dom (m_terms (doc w)) ⊆ dom (m_terms (doc w')) /\
  (forall x,
     x ∈ ring_items w ++ ((fun t => unigram t w) <$> texts) ->
     Term_key x ∈ dom (m_terms (doc w')) \/ x ∈ ring_items w').
Proof.
  induction texts as [|t texts IH]; intros w Hwf Ho k w'.
  - subst w'. simpl. pose proof Hwf as (? & ? & ?).
    split_and!; try done; try lia.
    intros x Hx. rewrite app_nil_r in Hx. now right.
  - subst w'. cbn [AddTerms].
    destruct (AddTerm_step t w Hwf Ho)
      as (Hret & Hwf1 & Ho1 & Hk1 & Htab1 & Hsid1 & Hcap1 & Hcnt1 & Hsz1 & Hdom1 & Hin1).
    destruct (AddTerm t w) as [o w1] eqn:E1. cbn [fst snd] in *. subst o.
    rewrite (bind_returned _ _ _ _ _ E1).
    destruct (IH w1 Hwf1 Ho1)
      as (Hret' & Hwf' & Ho' & Hk' & Htab' & Hsid' & Hcap' & Hcnt' & Hsz' & Hdom' & Hin').
    rewrite Hk1 in *. fold k in Hcnt1, Hsz1, Hcnt', Hsz', Hk' |- *.
    destruct Hwf as (? & ? & ?). fold k in H, H0, H1.
    split_and!; try congruence; try assumption.
    + rewrite Hcnt', Hcnt1. simpl. lia.
    + simpl. lia.
    + etrans; eassumption.
    + intros x Hx. rewrite fmap_cons in Hx.
      change (?a :: ?l) with ([a] ++ l) in Hx. rewrite app_assoc in Hx.
      apply elem_of_app in Hx as [Hx | Hx].
      * destruct (Hin1 x Hx) as [Hd | Hi].
        -- left. now apply Hdom'.
        -- apply Hin'. apply elem_of_app. now left.
      * apply Hin'. apply elem_of_app. right.
        assert (forall t', unigram t' w1 = unigram t' w) as Hu.
        { intros t'. unfold unigram. now rewrite Hsid1, Htab1. }
        rewrite (list_fmap_ext _ (fun t' => unigram t' w) texts); [exact Hx|].
        intros i y _. apply Hu.
Qed.

(** ** A whole stream *)

Lemma drain_ngrams_elem table x items :
  x ∈ items -> x ∈ drain_ngrams table items.
Proof.
  intros Hx. apply list_elem_of_split in Hx as (pre & post & ->).
  apply (drain_ngrams_contiguous table pre x [] post).
Qed.

Lemma triangle_half n : n * (n + 1) / 2 = triangle n.
Proof.
  rewrite <- triangle_closed, Nat.mul_comm. apply Nat.div_mul. lia.
Qed.

Lemma IngestStream_run name texts w :
  1 <= m_maxGramSize (doc w) <= ring_capacity w ->
  m_streamIsOpen (doc w) = false ->
  let k := m_maxGramSize (doc w) in
  let table := m_docFreqTable (doc w) in
  let r := IngestStream name texts w in
  let c := Nat.min (length texts) (k - 1) in
  fst r = Returned tt /\
  m_streamIsOpen (doc (snd r)) = false /\
  ring_items (snd r) = [] /\
  m_maxGramSize (doc (snd r)) = k /\
  ring_capacity (snd r) = ring_capacity w /\
  size (m_terms (doc (snd r))) + k * c
    <= size (m_terms (doc w)) + k * length texts + triangle c /\
  dom (m_terms (doc w)) ⊆ dom (m_terms (doc (snd r))) /\
  (forall t, t ∈ texts ->
     Term_key (Term_new t 0 table) ∈ dom (m_terms (doc (snd r)))).
Proof.
  intros Hcfg Hc k table r c. subst r. unfold IngestStream.
  rewrite (bind_returned _ _ _ _ _ (OpenStream_closed name w Hc)).
  pose proof (well_formed_opened w Hcfg) as Hwf.
  destruct (AddTerms_run texts (opened w) Hwf eq_refl)
    as (Hret & Hwf2 & Ho2 & Hk2 & Htab2 & _ & Hcap2 & Hcnt2 & Hsz2 & Hdom2 & Hin2).
  destruct (AddTerms texts (opened w)) as [o w2] eqn:E2. cbn [fst snd] in *. subst o.
  rewrite (bind_returned _ _ _ _ _ E2), (CloseStream_open w2 Ho2). cbn [fst snd].
  change (m_maxGramSize (doc (opened w))) with k in *.
  change (m_docFreqTable (doc (opened w))) with table in *.
  change (m_terms (doc (opened w))) with (m_terms (doc w)) in *.
  change (ring_count (opened w)) with 0 in *.
  change (ring_capacity (opened w)) with (ring_capacity w) in *.
  change (ring_items (opened w)) with (@nil Term) in *.
  rewrite Nat.add_0_l in Hcnt2. fold c in Hcnt2.
  pose proof (TermSet_insert_all_size (drain_ngrams (m_docFreqTable (doc w2)) (ring_items w2))
                (m_terms (doc w2))) as Hsize.
  rewrite drain_ngrams_length in Hsize.
  change (length (ring_items w2)) with (ring_count w2) in Hsize.
  rewrite Hcnt2 in *.
  split_and!; try done.
  - fields. lia.
  - fields. rewrite TermSet_insert_all_dom. set_solver.
  - intros t Ht. fields. rewrite TermSet_insert_all_dom.
    destruct (Hin2 (Term_new t 0 table)) as [Hd | Hi].
    + cbn [app]. apply list_elem_of_fmap. exists t. now split.
    + set_solver.
    + apply elem_of_union_l, elem_of_list_to_set, list_elem_of_fmap.
      eexists. split; [reflexivity|]. now apply drain_ngrams_elem.
Qed.

(** ** Counting distinct elements through an injection *)

Lemma size_le_of_inj `{Countable A, Countable B} (f : A -> B) (X : gset A) (Y : gset B) :
  Inj (=) (=) f ->
  (forall x, x ∈ X -> f x ∈ Y) ->
  size X <= size Y.
Proof.
  intros Hinj Hsub. unfold size, set_size. simpl.
  rewrite <- (length_fmap f (elements X)).
  apply submseteq_length, NoDup_submseteq.
  - apply NoDup_fmap_2; [exact Hinj | apply NoDup_elements].
  - intros y Hy. apply list_elem_of_fmap in Hy as (x & -> & Hx).
    apply elem_of_elements, Hsub. now apply elem_of_elements in Hx.
Qed.

(** * The claims *)

(** C1: with [maxGramSize = 2], the calls OpenStream, AddTerm("a"),
    AddTerm("b"), AddTerm("c"), CloseStream on a fresh Document return
    and leave a term set of exactly the five terms a, b, c, a+b, b+c;
    those five are all that went through [PostTerm], and a+b+c is not in
    the set. *)
Theorem abc_with_bigrams_gives_five_terms
    (table : DocFreqTable) (capacity : nat) (uninit : N) (out : list Term) (name : string) :
  2 <= capacity ->
  let config := {| GetMaxGramSize := 2; GetDocumentFrequencyTable := table |} in
  let a := Term_new "a" 0 table in
  let b := Term_new "b" 0 table in
  let c := Term_new "c" 0 table in
  let ab := Term_AddTerm table a b in
  let bc := Term_AddTerm table b c in
  let abc := Term_AddTerm table ab c in
  let r := IngestStream name ["a"; "b"; "c"]
             (mkWorld (Document_new config capacity uninit) out) in
  fst r = Returned tt /\
  cout (snd r) = out ++ [a; ab; b; bc; c] /\
  m_terms (doc (snd r)) = TermSet_of_list [a; ab; b; bc; c] /\
  dom (m_terms (doc (snd r)))
    = {[Term_key a; Term_key b; Term_key c; Term_key ab; Term_key bc]} /\
  GetPostingCount (doc (snd r)) = 5 /\
  ~ TermSet_contains abc (m_terms (doc (snd r))).
Proof.
  intros Hcap config a b c ab bc abc r.
  assert (r = (Returned tt,
               with_items []
                 (emit [a; ab; b; bc; c]
                    (mkWorld
                       (mkDocument 2 table 3 false 0 (RingBuffer.mk capacity []) ∅)
                       out)))) as Hr.
  { subst r. unfold IngestStream.
    erewrite bind_returned by (apply OpenStream_closed; reflexivity).
    erewrite bind_returned.
    2:{ cbn [AddTerms].
        do 3 (erewrite bind_returned
                by (apply AddTerm_open; [reflexivity | fields; simpl; lia]);
              fields; cbn -[TermSet_insert_all]).
        reflexivity. }
    rewrite CloseStream_open by reflexivity.
    fields. cbn -[TermSet_insert_all].
    now rewrite <- !TermSet_insert_all_app, <- !app_assoc. }
  assert (Term_key <$> [a; ab; b; bc; c]
          = [("a", table "a"); ("ab", table "ab"); ("b", table "b");
             ("bc", table "bc"); ("c", table "c")]) as Hkeys by reflexivity.
  assert (dom (m_terms (doc (snd r)))
          = list_to_set (Term_key <$> [a; ab; b; bc; c])) as Hdom.
  { rewrite Hr. fields. rewrite TermSet_insert_all_dom. set_solver. }
  rewrite Hr at 1 2 3. cbn [fst snd]. fields.
  split_and!; try reflexivity.
  - rewrite Hdom. cbn [fmap list_fmap list_to_set foldr].
    apply set_eq. intros k. set_solver.
  - unfold GetPostingCount. rewrite <- size_dom, Hdom, Hkeys.
    rewrite size_list_to_set; [reflexivity|].
    repeat (apply NoDup_cons_2; [rewrite ?not_elem_of_cons; split_and?;
                                 try apply not_elem_of_nil; intros [=]|]).
    apply NoDup_nil_2.
  - unfold TermSet_contains. rewrite <- elem_of_dom, Hdom, Hkeys.
    rewrite elem_of_list_to_set, !not_elem_of_cons. split_and?;
      try apply not_elem_of_nil; intros [=].
Qed.

Lemma abc_with_bigrams_witness :
  2 <= 2 /\
  GetPostingCount
    (doc (snd (IngestStream "body" ["a"; "b"; "c"]
                 (mkWorld
                    (Document_new
                       {| GetMaxGramSize := 2;
                          GetDocumentFrequencyTable := fun _ => 0%N |} 2 0) []))))
  = 5.
Proof.
  assert (2 <= 2) as H by lia. split; [exact H|].
  pose proof (abc_with_bigrams_gives_five_terms (fun _ => 0%N) 2 0%N [] "body" H)
    as (_ & _ & _ & _ & H5 & _).
  exact H5.
Defined.

(** C2: on a window [t0; t1; ...; t(k-1)], [k >= 1], one call of
    [ProcessNGrams] returns, hands exactly [k] terms to [PostTerm], and
    the i-th of them is the composition [t0 + t1 + ... + ti]: the
    n-grams that start at position 0 of the window, each once. *)
Theorem ProcessNGrams_emits_prefix_compositions (w : World) (t0 : Term) (rest : list Term) :
  ring_items w = t0 :: rest ->
  exists emitted : list Term,
    ProcessNGrams w = (Returned tt, emit emitted w) /\
    cout (snd (ProcessNGrams w)) = cout w ++ emitted /\
    m_terms (doc (snd (ProcessNGrams w)))
      = TermSet_insert_all emitted (m_terms (doc w)) /\
    ring_items (snd (ProcessNGrams w)) = ring_items w /\
    length emitted = ring_count w /\
    forall i, i < ring_count w ->
      emitted !! i
      = Some (foldl (Term_AddTerm (m_docFreqTable (doc w))) t0 (take i rest)).
Proof.
  intros Hw. exists (window_ngrams (m_docFreqTable (doc w)) (t0 :: rest)).
  rewrite (ProcessNGrams_eq w t0 rest Hw).
  assert (ring_count w = S (length rest)) as Hk.
  { unfold ring_count, RingBuffer.GetCount. unfold ring_items in Hw. now rewrite Hw. }
  split_and!; try reflexivity.
  - rewrite window_ngrams_length, Hk. reflexivity.
  - intros i Hi. apply window_ngrams_lookup. lia.
Qed.

Lemma ProcessNGrams_emits_witness :
  let t0 := Term_new "new" 0 (fun _ => 0%N) in
  let t1 := Term_new "york" 0 (fun _ => 0%N) in
  let t2 := Term_new "city" 0 (fun _ => 0%N) in
  let w := mkWorld
             (mkDocument 3 (fun _ => 0%N) 3 true 0 (RingBuffer.mk 3 [t0; t1; t2]) ∅) [] in
  ring_items w = [t0; t1; t2] /\
  exists emitted : list Term,
    ProcessNGrams w = (Returned tt, emit emitted w) /\
    cout (snd (ProcessNGrams w)) = cout w ++ emitted /\
    m_terms (doc (snd (ProcessNGrams w)))
      = TermSet_insert_all emitted (m_terms (doc w)) /\
    ring_items (snd (ProcessNGrams w)) = ring_items w /\
    length emitted = ring_count w /\
    forall i, i < ring_count w ->
      emitted !! i
      = Some (foldl (Term_AddTerm (m_docFreqTable (doc w))) t0 (take i [t1; t2])).
Proof.
  intros t0 t1 t2 w. split; [reflexivity|].
  apply (ProcessNGrams_emits_prefix_compositions w t0 [t1; t2]). reflexivity.
Defined.

(** C3: [CloseStream] on an open stream closes it and drains the ring
    buffer: the drain runs [ProcessNGrams] and then pops the front for
    as long as the buffer is not empty, so it returns with the buffer
    empty, and the composition of every run of consecutive elements left
    in the buffer (every trailing n-gram) is in the term set. *)
Theorem CloseStream_drains_ring_buffer (w : World) :
  m_streamIsOpen (doc w) = true ->
  let table := m_docFreqTable (doc w) in
  let r := CloseStream w in
  fst r = Returned tt /\
  m_streamIsOpen (doc (snd r)) = false /\
  ring_items (snd r) = [] /\
  cout (snd r) = cout w ++ drain_ngrams table (ring_items w) /\
  m_terms (doc (snd r))
    = TermSet_insert_all (drain_ngrams table (ring_items w)) (m_terms (doc w)) /\
  (forall w', ring_items w' = [] -> PurgeRingBuffer w' = (Returned tt, w')) /\
  (forall w', ring_items w' <> [] ->
     PurgeRingBuffer w'
     = (ProcessNGrams;;
        try_modify (on_ringBuffer RingBuffer.PopFront);;
        PurgeRingBuffer) w') /\
  (forall pre t0 mid post,
     ring_items w = pre ++ t0 :: mid ++ post ->
     TermSet_contains (foldl (Term_AddTerm table) t0 mid) (m_terms (doc (snd r)))).
Proof.
  intros Ho table r. subst r. rewrite (CloseStream_open w Ho). cbn [fst snd].
  split_and!; try reflexivity.
  - intros w' Hw'. rewrite PurgeRingBuffer_eq, Hw'. cbn [drain_ngrams].
    rewrite emit_nil. rewrite <- Hw'. now rewrite with_items_same.
  - intros w' Hw'. destruct (ring_items w') as [|t0 rest] eqn:Eits; [done|].
    rewrite (bind_returned _ _ _ _ _ (ProcessNGrams_eq w' t0 rest Eits)).
    rewrite (bind_returned _ _ _ _ _ (PopFront_eq (emit _ w') t0 rest Eits)).
    rewrite !PurgeRingBuffer_eq, Eits, drain_ngrams_cons. fields.
    now rewrite TermSet_insert_all_app, app_assoc.
  - intros pre t0 mid post Hw. unfold TermSet_contains.
    apply elem_of_dom. fields. rewrite TermSet_insert_all_dom.
    apply elem_of_union_l, elem_of_list_to_set, list_elem_of_fmap.
    eexists. split; [reflexivity|]. rewrite Hw. apply drain_ngrams_contiguous.
Qed.

Lemma CloseStream_drains_witness :
  let t0 := Term_new "new" 0 (fun _ => 0%N) in
  let t1 := Term_new "york" 0 (fun _ => 0%N) in
  let w := mkWorld
             (mkDocument 3 (fun _ => 0%N) 2 true 0 (RingBuffer.mk 3 [t0; t1]) ∅) [] in
  m_streamIsOpen (doc w) = true /\
  fst (CloseStream w) = Returned tt /\
  ring_items (snd (CloseStream w)) = [] /\
  cout (snd (CloseStream w)) = [t0; Term_AddTerm (fun _ => 0%N) t0 t1; t1].
Proof.
  intros t0 t1 w. split; [reflexivity|].
  pose proof (CloseStream_drains_ring_buffer w eq_refl) as (H1 & _ & H3 & H4 & _).
  split; [exact H1|]. split; [exact H3|]. exact H4.
Defined.

(** C5: the stream calls enforce Closed -> Open -> Closed.  For every
    Document, [OpenStream] throws a FatalError if and only if a stream
    is open, [AddTerm] and [CloseStream] if and only if none is, and a
    call that throws a FatalError leaves the Document (term set, ring
    buffer, counter, flag) and the output as they were.  On a Document
    that satisfies its invariant nothing else can be thrown: a call
    either throws that FatalError or returns, keeps the invariant and
    moves the flag. *)
Theorem stream_state_machine (w : World) (name termText : string) :
  (throws_FatalError (OpenStream name) w <-> m_streamIsOpen (doc w) = true) /\
  (throws_FatalError (AddTerm termText) w <-> m_streamIsOpen (doc w) = false) /\
  (throws_FatalError CloseStream w <-> m_streamIsOpen (doc w) = false) /\
  (forall c msg,
     fst (run_call c w) = Thrown (FatalError msg) -> snd (run_call c w) = w) /\
  (well_formed w ->
   forall c,
     (throws (run_call c) w <-> throws_FatalError (run_call c) w) /\
     (~ throws (run_call c) w ->
      fst (run_call c w) = Returned tt /\
      well_formed (snd (run_call c w)) /\
      m_streamIsOpen (doc (snd (run_call c w)))
        = match c with CallCloseStream => false | _ => true end)).
Proof.
  assert (forall c, throws_FatalError (run_call c) w <->
                    m_streamIsOpen (doc w) = refused_flag c) as Hiff.
  { intros c. destruct (run_call_FatalError c w) as (Hyes & Hno). split.
    - intros Hthr. destruct (decide (m_streamIsOpen (doc w) = refused_flag c)); [done|].
      now destruct Hno.
    - intros Hf. destruct (Hyes Hf) as [msg Hm]. exists msg. now rewrite Hm. }
  split_and!.
  - apply (Hiff (CallOpenStream name)).
  - apply (Hiff (CallAddTerm termText)).
  - apply (Hiff CallCloseStream).
  - intros c msg Hm. destruct (run_call_FatalError c w) as (Hyes & Hno).
    destruct (decide (m_streamIsOpen (doc w) = refused_flag c)) as [Hf|Hf].
    + destruct (Hyes Hf) as [msg' Hm']. now rewrite Hm'.
    + destruct (Hno Hf). exists msg. exact Hm.
  - intros Hwf c.
    destruct (run_call_cases c w Hwf) as [(Hret & Hwf' & Hflag & _) | (msg & Hthr & _)].
    + split; [|done]. unfold throws, throws_FatalError. rewrite Hret.
      split; intros [? ?]; discriminate.
    + split.
      * unfold throws, throws_FatalError. rewrite Hthr. split; eauto.
      * intros Hno. destruct Hno. unfold throws. eauto.
Qed.

Lemma stream_state_machine_witness :
  let w := mkWorld
             (Document_new
                {| GetMaxGramSize := 2; GetDocumentFrequencyTable := fun _ => 0%N |}
                2 0) [] in
  well_formed w /\
  throws_FatalError (AddTerm "a") w /\
  snd (AddTerm "a" w) = w /\
  fst (OpenStream "body" w) = Returned tt.
Proof.
  intros w.
  assert (well_formed w) as Hwf by (unfold well_formed; fields; simpl; lia).
  pose proof (stream_state_machine w "body" "a") as (_ & HA & _ & Hsame & Hgood).
  assert (throws_FatalError (AddTerm "a") w) as Hthr by (apply HA; reflexivity).
  split; [exact Hwf|]. split; [exact Hthr|]. split.
  - destruct Hthr as [msg Hm]. exact (Hsame (CallAddTerm "a") msg Hm).
  - destruct (Hgood Hwf (CallOpenStream "body")) as (_ & Hret).
    apply Hret. intros [e He]. discriminate.
Defined.

(** C6: a Document built with [1 <= maxGramSize <= capacity] and driven
    only through its three stream calls always has at most
    [maxGramSize - 1] terms in the ring buffer, in particular whenever
    [AddTerm] returns; so there is room at [PushBack], the buffer is
    not empty where [AddTerm] and the drain call [ProcessNGrams], and
    no call ever fails the [PushBack] check, the [count > 0] assertion
    or any other assertion, nor runs out of fuel. *)
Theorem ring_buffer_stays_below_gram_size
    (config : IConfiguration) (capacity : nat) (w : World) :
  1 <= GetMaxGramSize config <= capacity ->
  reachable config capacity w ->
  ring_count w <= m_maxGramSize (doc w) - 1 /\
  ring_count w < ring_capacity w /\
  (forall termText,
     ring_count (snd (AddTerm termText w)) <= m_maxGramSize (doc w) - 1 /\
     (m_streamIsOpen (doc w) = true ->
      fst (AddTerm termText w) = Returned tt /\
      (S (ring_count w) = m_maxGramSize (doc w) ->
       fst (ProcessNGrams
              (with_items (ring_items w ++ [unigram termText w]) (counted w)))
       = Returned tt))) /\
  (forall termText,
     0 < ring_count (with_items (ring_items w ++ [unigram termText w]) (counted w))) /\
  (forall w', RingBuffer.IsEmpty (m_ringBuffer (doc w')) = false -> 0 < ring_count w') /\
  (forall c cond, fst (run_call c w) <> Thrown (LogAssertFailed cond)) /\
  (forall c, fst (run_call c w) <> OutOfFuel).
Proof.
  intros Hcfg Hr.
  pose proof (reachable_well_formed config capacity w Hcfg Hr) as Hwf.
  pose proof Hwf as (Hk & Hcap & Hcount).
  assert (forall c, fst (run_call c w) = Returned tt \/
                    exists msg, fst (run_call c w) = Thrown (FatalError msg)) as Hcalls.
  { intros c.
    destruct (run_call_cases c w Hwf) as [(Hret & _) | (msg & Hthr & _)]; eauto. }
  split_and!.
  - lia.
  - lia.
  - intros termText. split.
    + pose proof (well_formed_run_call (CallAddTerm termText) w Hwf) as (Hk' & _ & Hc').
      simpl in Hk', Hc'.
      assert (m_maxGramSize (doc (snd (AddTerm termText w))) = m_maxGramSize (doc w)) as E.
      { destruct (m_streamIsOpen (doc w)) eqn:Ho.
        - now apply AddTerm_step.
        - now rewrite AddTerm_closed. }
      lia.
    + intros Ho. split; [now apply AddTerm_step|].
      intros Hfull.
      destruct (ring_items w ++ [unigram termText w]) as [|t0 rest] eqn:Eits.
      { destruct (ring_items w); discriminate. }
      now rewrite (ProcessNGrams_eq _ t0 rest).
  - intros termText. fields. rewrite length_app. simpl. lia.
  - intros w'. unfold RingBuffer.IsEmpty, ring_count.
    destruct (Nat.eqb_spec (RingBuffer.GetCount (m_ringBuffer (doc w'))) 0); [discriminate | lia].
  - intros c cond E. destruct (Hcalls c) as [H | [msg H]]; congruence.
  - intros c E. destruct (Hcalls c) as [H | [msg H]]; congruence.
Qed.

Lemma ring_buffer_stays_below_witness :
  let config := {| GetMaxGramSize := 2; GetDocumentFrequencyTable := fun _ => 0%N |} in
  let w := snd (run_call (CallAddTerm "a")
             (snd (run_call (CallOpenStream "body")
                (mkWorld (Document_new config 2 0) [])))) in
  1 <= GetMaxGramSize config <= 2 /\
  reachable config 2 w /\
  ring_count w <= m_maxGramSize (doc w) - 1 /\
  ring_count w < ring_capacity w.
Proof.
  intros config w.
  assert (1 <= GetMaxGramSize config <= 2) as Hcfg by (simpl; lia).
  assert (reachable config 2 w) as Hr by (do 2 apply reachable_call; apply reachable_new).
  pose proof (ring_buffer_stays_below_gram_size config 2 w Hcfg Hr) as (H1 & H2 & _).
  split; [exact Hcfg|]. split; [exact Hr|]. split; [exact H1 | exact H2].
Defined.

(** C4, as amended: after a complete stream of [L] terms on a fresh
    Document with [maxGramSize = k] (and a ring buffer that fits it),
    the number of unique terms is at most [L*k - k*(k-1)/2] provided the
    stream has at least [k - 1] terms, at most [L*(L+1)/2] for a shorter
    stream, and in every case at least the number of distinct unigrams
    of the stream. *)
Theorem unique_terms_bounds
    (config : IConfiguration) (capacity : nat) (uninit : N) (out : list Term)
    (name : string) (texts : list string) :
  1 <= GetMaxGramSize config <= capacity ->
  let k := GetMaxGramSize config in
  let L := length texts in
  let r := IngestStream name texts (mkWorld (Document_new config capacity uninit) out) in
  let n := GetPostingCount (doc (snd r)) in
  fst r = Returned tt /\
  (k - 1 <= L -> n <= L * k - k * (k - 1) / 2) /\
  (L <= k - 1 -> n <= L * (L + 1) / 2) /\
  size (list_to_set texts : gset string) <= n.
Proof.
  intros Hcfg k L r n.
  destruct (IngestStream_run name texts
              (mkWorld (Document_new config capacity uninit) out) Hcfg eq_refl)
    as (Hret & _ & _ & _ & _ & Hsz & _ & Hin).
  fold r in Hret, Hsz, Hin. cbn [doc Document_new m_terms m_maxGramSize m_docFreqTable] in Hsz, Hin.
  fold k L in Hsz. rewrite map_size_empty in Hsz.
  unfold GetPostingCount in n. fold n in Hsz.
  split_and!.
  - exact Hret.
  - intros HL. rewrite Nat.min_r in Hsz by lia.
    assert (k * (k - 1) / 2 = triangle (k - 1)) as ->.
    { rewrite <- triangle_half. f_equal. replace (k - 1 + 1) with k by lia. lia. }
    pose proof (triangle_closed (k - 1)) as HT.
    replace (k - 1 + 1) with k in HT by lia. nia.
  - intros HL. rewrite Nat.min_l in Hsz by lia.
    rewrite triangle_half. lia.
  - subst n. rewrite <- size_dom.
    apply (size_le_of_inj
             (fun t => Term_key (Term_new t 0 (GetDocumentFrequencyTable config)))).
    + intros t1 t2 [=]. assumption.
    + intros t Ht. apply Hin. now apply elem_of_list_to_set in Ht.
Qed.

Lemma unique_terms_bounds_witness :
  let config := {| GetMaxGramSize := 2; GetDocumentFrequencyTable := fun _ => 0%N |} in
  let r := IngestStream "body" ["a"; "b"; "a"; "b"]
             (mkWorld (Document_new config 2 0) []) in
  1 <= GetMaxGramSize config <= 2 /\
  GetPostingCount (doc (snd r)) <= 4 * 2 - 2 * (2 - 1) / 2 /\
  size (list_to_set ["a"; "b"; "a"; "b"] : gset string) <= GetPostingCount (doc (snd r)).
Proof.
  intros config r.
  assert (1 <= GetMaxGramSize config <= 2) as Hcfg by (simpl; lia).
  pose proof (unique_terms_bounds config 2 0%N [] "body" ["a"; "b"; "a"; "b"] Hcfg)
    as (_ & Hup & _ & Hlow).
  split; [exact Hcfg|]. split; [|exact Hlow].
  apply Hup. simpl. lia.
Defined.

(** C4 as stated fails: with [maxGramSize = 3] the one-term stream
    ["a"] leaves one unique term, and [L*k - k*(k-1)/2 = 3 - 3 = 0]. *)
Lemma unique_terms_bound_fails_for_short_stream :
  let config := {| GetMaxGramSize := 3; GetDocumentFrequencyTable := fun _ => 0%N |} in
  let r := IngestStream "body" ["a"] (mkWorld (Document_new config 3 0) []) in
  fst r = Returned tt /\
  GetPostingCount (doc (snd r)) = 1 /\
  ~ (GetPostingCount (doc (snd r)) <= 1 * 3 - 3 * (3 - 1) / 2).
Proof.
  intros config r.
  assert (GetPostingCount (doc (snd r)) = 1) as Hn by (vm_compute; reflexivity).
  split; [vm_compute; reflexivity|]. split; [exact Hn|].
  rewrite Hn. simpl. lia.
Qed.

(** C10: [OpenStream] leaves the term set, the posting counter, the gram
    size, the frequency table and the output as they were, whether it
    returns or throws; when it returns it has set the flag, the stream
    id and emptied the ring buffer.  So a term already in the set is
    deduplicated when the new stream posts it again, and every term of
    an earlier stream is still in the set after a later one. *)
Theorem OpenStream_keeps_terms_and_count (w : World) (name : string) :
  let w' := snd (OpenStream name w) in
  m_terms (doc w') = m_terms (doc w) /\
  m_postingCount (doc w') = m_postingCount (doc w) /\
  m_maxGramSize (doc w') = m_maxGramSize (doc w) /\
  m_docFreqTable (doc w') = m_docFreqTable (doc w) /\
  ring_capacity w' = ring_capacity w /\
  cout w' = cout w /\
  (m_streamIsOpen (doc w) = false ->
   fst (OpenStream name w) = Returned tt /\
   m_streamIsOpen (doc w') = true /\
   m_currentStreamId (doc w') = 0%N /\
   ring_items w' = []) /\
  (forall term,
     TermSet_contains term (m_terms (doc w)) ->
     m_terms (doc (snd (PostTerm term w'))) = m_terms (doc w)) /\
  (forall texts,
     1 <= m_maxGramSize (doc w) <= ring_capacity w ->
     m_streamIsOpen (doc w) = false ->
     fst (IngestStream name texts w) = Returned tt /\
     dom (m_terms (doc w)) ⊆ dom (m_terms (doc (snd (IngestStream name texts w))))).
Proof.
  intros w'. subst w'.
  destruct (m_streamIsOpen (doc w)) eqn:Ho.
  - rewrite (OpenStream_open name w Ho). cbn [fst snd].
    split_and!; try reflexivity; try discriminate.
    intros term Hin. rewrite PostTerm_eq. fields.
    cbn [TermSet_insert_all foldl]. now apply TermSet_insert_present.
  - rewrite (OpenStream_closed name w Ho). cbn [fst snd].
    split_and!; try reflexivity.
    + done.
    + intros term Hin. rewrite PostTerm_eq. fields.
      cbn [TermSet_insert_all foldl]. now apply TermSet_insert_present.
    + intros texts Hcfg _.
      pose proof (IngestStream_run name texts w Hcfg Ho) as (? & _ & _ & _ & _ & _ & ? & _).
      done.
Qed.

Lemma OpenStream_keeps_terms_witness :
  let config := {| GetMaxGramSize := 2; GetDocumentFrequencyTable := fun _ => 0%N |} in
  let w := snd (IngestStream "title" ["a"; "b"] (mkWorld (Document_new config 2 0) [])) in
  m_terms (doc (snd (OpenStream "body" w))) = m_terms (doc w) /\
  m_postingCount (doc (snd (OpenStream "body" w))) = 2%N /\
  GetPostingCount (doc (snd (IngestStream "body" ["b"; "a"; "b"] w))) = 4.
Proof.
  intros config w.
  pose proof (OpenStream_keeps_terms_and_count w "body") as (H1 & H2 & _).
  split; [exact H1|]. split; [exact H2|]. vm_compute. reflexivity.
Defined.

(** * The Ingestor *)

Module IngestorFacts.
Import Ingestor.

Local Open Scope N_scope.

Lemma alter_present (f : Entry -> Entry) (m : gmap DocId Entry) id e :
  m !! id = Some e -> alter f id m = <[id := f e]> m.
Proof.
  intros He. apply map_eq. intros j. destruct (decide (id = j)) as [<-|Hne].
  - now rewrite lookup_alter_eq, lookup_insert_eq, He.
  - now rewrite lookup_alter_ne, lookup_insert_ne.
Qed.

Lemma Contains_true_lookup id s :
  Contains id s = true <->
  exists e, m_documentMap s !! id = Some e /\ tombstoned e = false.
Proof.
  unfold Contains, DocumentMap_Contains, live.
  destruct (m_documentMap s !! id) as [e|]; [|split; [discriminate | intros (? & ? & _); discriminate]].
  destruct (tombstoned e) eqn:Et; simpl; split; try discriminate; eauto.
  - intros (e' & [= <-] & Hf). congruence.
Qed.

Lemma Contains_after_Remove id id' (m : gmap DocId Entry) :
  DocumentMap_Contains id' (DocumentMap_Remove id m)
  = if decide (id = id') then false else DocumentMap_Contains id' m.
Proof.
  unfold DocumentMap_Contains, DocumentMap_Remove. case_decide as Hid.
  - subst. rewrite lookup_alter_eq. now destruct (m !! id').
  - now rewrite lookup_alter_ne.
Qed.

(** ** Delete, case by case *)

Lemma Delete_live id s :
  Contains id s = true -> Delete id s = (Returned true, deleted id s).
Proof. intros Hc. unfold Delete, bind, gets. now rewrite Hc. Qed.

Lemma Delete_absent id s :
  Contains id s = false -> Delete id s = (Returned false, s).
Proof. intros Hc. unfold Delete, bind, gets. now rewrite Hc. Qed.

Lemma Delete_returns id s : fst (Delete id s) = Returned (Contains id s).
Proof.
  destruct (Contains id s) eqn:Hc.
  - now rewrite Delete_live.
  - now rewrite Delete_absent.
Qed.

Lemma Contains_deleted id id' s :
  Contains id' (deleted id s) = if decide (id = id') then false else Contains id' s.
Proof. apply Contains_after_Remove. Qed.

(** ** The document count counts the live entries *)

Lemma live_count_deleted id s :
  Contains id s = true -> live_count s = N.succ (live_count (deleted id s)).
Proof.
  intros Hc. apply Contains_true_lookup in Hc as (e & He & Hlive).
  unfold live_count, deleted. cbn [m_documentMap]. unfold DocumentMap_Remove.
  rewrite (alter_present _ _ _ _ He).
  rewrite map_filter_insert_False by (cbn; discriminate).
  rewrite map_filter_delete, map_size_delete_Some.
  - assert (size (filter (fun kv => live (snd kv) = true) (m_documentMap s)) <> 0)%nat.
    { apply map_size_ne_0_lookup_2 with id.
      rewrite (map_lookup_filter_Some_2 _ _ id e); [eauto | done |].
      unfold live. cbn. now rewrite Hlive. }
    lia.
  - exists e. apply map_lookup_filter_Some_2; [done|].
    unfold live. cbn. now rewrite Hlive.
Qed.






(** ** One operation *)





(** ** The claims on the Ingestor *)

(** C7: [Delete(id)] never throws and returns whether [id] was live at
    the call.  On a live id it tombstones the entry and decrements
    [documentCount]; on an absent or already deleted id it changes
    nothing.  A second [Delete(id)] returns false and changes nothing,
    and [Contains(id)] is false after either call. *)
Theorem Delete_returns_liveness_and_is_idempotent (id : DocId) (s : t) :
  let r1 := Delete id s in
  let r2 := Delete id (snd r1) in
  fst r1 = Returned (Contains id s) /\
  (Contains id s = true ->
   (exists e,
      m_documentMap s !! id = Some e /\
      m_documentMap (snd r1) !! id
      = Some {| location := location e; tombstoned := true |}) /\
   m_documentCount (snd r1) = N.pred (m_documentCount s) /\
   (count_is_live s -> m_documentCount s = m_documentCount (snd r1) + 1)) /\
  (Contains id s = false -> snd r1 = s) /\
  Contains id (snd r1) = false /\
  fst r2 = Returned false /\
  snd r2 = snd r1 /\
  Contains id (snd r2) = false.
Proof.
  intros r1 r2. subst r1 r2.
  assert (Contains id (snd (Delete id s)) = false) as Hgone.
  { destruct (Contains id s) eqn:Hc.
    - rewrite Delete_live by done. cbn [snd]. rewrite Contains_deleted.
      now rewrite decide_True.
    - now rewrite Delete_absent. }
  rewrite (Delete_absent id (snd (Delete id s)) Hgone). cbn [fst snd].
  split_and!; try done.
  - apply Delete_returns.
  - intros Hc. rewrite (Delete_live id s Hc). cbn [snd deleted m_documentMap m_documentCount].
    split_and!.
    + pose proof Hc as (e & He & _)%Contains_true_lookup. exists e. split; [done|].
      unfold DocumentMap_Remove. now rewrite lookup_alter_eq, He.
    + reflexivity.
    + intros Hinv. unfold count_is_live in Hinv.
      pose proof (live_count_deleted id s Hc). lia.
  - intros Hc. now rewrite Delete_absent.
Qed.

Lemma Delete_twice_witness :
  let s := snd (Add 7 {| IDocument.GetSourceByteSize := 100; IDocument.GetPostingCount := 5 |}
                  (Some (0, 0, 0)) new) in
  Contains 7 s = true /\
  fst (Delete 7 s) = Returned true /\
  fst (Delete 7 (snd (Delete 7 s))) = Returned false /\
  Contains 7 (snd (Delete 7 s)) = false /\
  m_documentCount (snd (Delete 7 s)) = 0.
Proof.
  intros s.
  pose proof (Delete_returns_liveness_and_is_idempotent 7 s)
    as (H1 & H2 & _ & H4 & H5 & _).
  assert (Contains 7 s = true) as Hc by (vm_compute; reflexivity).
  split; [exact Hc|]. split; [rewrite H1, Hc; reflexivity|].
  split; [exact H5|]. split; [exact H4|].
  destruct (H2 Hc) as (_ & Hcount & _). rewrite Hcount. reflexivity.
Defined.

(** ** Operations within the system *)





Lemma run_ops_app ops1 ops2 sys :
  run_ops (ops1 ++ ops2) sys = run_ops ops2 (run_ops ops1 sys).
Proof. unfold run_ops. apply foldl_app. Qed.










End IngestorFacts.

(** * Further properties of Document *)

(** ** The n-grams of a sequence *)

Lemma stream_ngrams_short k table l :
  length l <= k -> stream_ngrams k table l = drain_ngrams table l.
Proof.
  induction l as [|t0 rest IH]; intros Hlen; [reflexivity|].
  cbn [stream_ngrams]. rewrite drain_ngrams_cons.
  rewrite take_ge by exact Hlen. rewrite IH by (simpl in Hlen; lia). reflexivity.
Qed.

Lemma stream_ngrams_full k table window rest :
  length window = k -> window <> [] ->
  stream_ngrams k table (window ++ rest)
  = window_ngrams table window ++ stream_ngrams k table (tail window ++ rest).
Proof.
  intros Hlen Hne. destruct window as [|t0 window]; [done|].
  cbn [app tail stream_ngrams]. f_equal. f_equal.
  change (t0 :: window ++ rest) with ((t0 :: window) ++ rest).
  rewrite take_app_length'; [reflexivity | symmetry; exact Hlen].
Qed.

Lemma window_ngrams_elem table t0 rest t :
  t ∈ window_ngrams table (t0 :: rest) <->
  exists i, i <= length rest /\ t = foldl (Term_AddTerm table) t0 (take i rest).
Proof.
  rewrite list_elem_of_lookup. split.
  - intros [i Hi]. pose proof (lookup_lt_Some _ _ _ Hi) as Hlt.
    rewrite window_ngrams_length in Hlt. simpl in Hlt.
    rewrite window_ngrams_lookup in Hi by lia. exists i. split; [lia | congruence].
  - intros (i & Hi & ->). exists i. now apply window_ngrams_lookup.
Qed.

Lemma stream_ngrams_elem k table l t :
  t ∈ stream_ngrams k table l <-> is_ngram_of k table l t.
Proof.
  unfold is_ngram_of. induction l as [|t0 rest IH].
  - split; [intros H; now apply elem_of_nil in H|].
    intros (pre & t1 & mid & post & Hl & _). now destruct pre.
  - cbn [stream_ngrams]. rewrite elem_of_app, IH. split.
    + intros [Hw | (pre & t1 & mid & post & -> & Hk & ->)].
      * destruct k as [|k]; [now apply elem_of_nil in Hw|].
        cbn [take] in Hw. apply window_ngrams_elem in Hw as (i & Hi & ->).
        rewrite length_take in Hi. rewrite take_take.
        exists [], t0, (take (Nat.min i k) rest), (drop (Nat.min i k) rest).
        rewrite take_drop, length_take. split_and!; [reflexivity | lia | reflexivity].
      * exists (t0 :: pre), t1, mid, post. done.
    + intros (pre & t1 & mid & post & Hl & Hk & ->).
      destruct pre as [|p pre]; cbn [app] in Hl; injection Hl as <- ->.
      * left. destruct k as [|k]; [lia|]. cbn [take].
        apply window_ngrams_elem. exists (length mid). rewrite length_take, length_app.
        split; [lia|]. rewrite take_take, Nat.min_l by lia.
        now rewrite take_app_length.
      * right. exists pre, t1, mid, post. done.
Qed.

Lemma stream_ngrams_length k table l :
  length (stream_ngrams k table l) = posted_count k (length l).
Proof.
  unfold posted_count. induction l as [|t0 rest IH]; [simpl; lia|].
  cbn [stream_ngrams]. rewrite length_app, window_ngrams_length, length_take, IH.
  cbn [length]. set (n := length rest).
  destruct (Nat.le_gt_cases (S n) (k - 1)) as [Hs|Hs].
  - rewrite (Nat.min_l (S n)), (Nat.min_l n) by lia.
    rewrite !Nat.sub_diag, !Nat.mul_0_r. cbn [triangle]. lia.
  - rewrite (Nat.min_r (S n)), (Nat.min_r n) by lia.
    destruct k as [|k]; [simpl; lia|].
    rewrite Nat.min_l by lia. nia.
Qed.

(** ** The term set under repeated insertion *)

Lemma TermSet_insert_lookup t s key x :
  s !! key = Some x -> TermSet_insert t s !! key = Some x.
Proof.
  intros Hx. unfold TermSet_insert. destruct (s !! Term_key t) eqn:E; [done|].
  rewrite lookup_insert_ne; [done | congruence].
Qed.

Lemma TermSet_insert_all_lookup l : forall s key x,
  s !! key = Some x -> TermSet_insert_all l s !! key = Some x.
Proof.
  induction l as [|t l IH]; intros s key x Hx; [exact Hx|].
  rewrite TermSet_insert_all_cons. apply IH. now apply TermSet_insert_lookup.
Qed.

Lemma TermSet_insert_all_absorb l : forall s,
  (forall t, t ∈ l -> TermSet_contains t s) -> TermSet_insert_all l s = s.
Proof.
  induction l as [|t l IH]; intros s Hin; [reflexivity|].
  rewrite TermSet_insert_all_cons.
  rewrite (TermSet_insert_present t s) by (apply Hin; apply list_elem_of_here).
  apply IH. intros t' Ht'. apply Hin. now apply list_elem_of_further.
Qed.

Lemma TermSet_insert_all_contains l s t :
  t ∈ l -> TermSet_contains t (TermSet_insert_all l s).
Proof.
  intros Ht. unfold TermSet_contains. apply elem_of_dom.
  rewrite TermSet_insert_all_dom. apply elem_of_union_l, elem_of_list_to_set.
  apply list_elem_of_fmap. eauto.
Qed.

(** ** A whole stream, exactly *)

Lemma bind_assoc {S A B C} (m : M S A) (f : A -> M S B) (g : B -> M S C) s :
  bind (bind m f) g s = bind m (fun x => bind (f x) g) s.
Proof. unfold bind. destruct (m s) as [[a|e|] s']; reflexivity. Qed.

Lemma size_t_add_mod (a b : N) :
  (((a + 1) mod size_t_modulus + b) mod size_t_modulus
   = (a + N.succ b) mod size_t_modulus)%N.
Proof.
  rewrite N.Div0.add_mod_idemp_l. f_equal. lia.
Qed.

(** From an open stream with the invariant: the remaining [AddTerm]s
    and the [CloseStream] post the n-grams of what is in the buffer
    followed by the new unigrams, in order of starting position. *)
Lemma AddTerms_CloseStream_run texts : forall w,
  well_formed w ->
  m_streamIsOpen (doc w) = true ->
  let table := m_docFreqTable (doc w) in
  let k := m_maxGramSize (doc w) in
  let r := (AddTerms texts;; CloseStream) w in
  let posted :=
    stream_ngrams k table
      (ring_items w ++ unigrams table (m_currentStreamId (doc w)) texts) in
  fst r = Returned tt /\
  cout (snd r) = cout w ++ posted /\
  m_terms (doc (snd r)) = TermSet_insert_all posted (m_terms (doc w)) /\
  m_streamIsOpen (doc (snd r)) = false /\
  ring_items (snd r) = [] /\
  m_maxGramSize (doc (snd r)) = k /\
  m_docFreqTable (doc (snd r)) = table /\
  ring_capacity (snd r) = ring_capacity w /\
  m_currentStreamId (doc (snd r)) = m_currentStreamId (doc w) /\
  (m_postingCount (doc (snd r)) mod size_t_modulus
   = (m_postingCount (doc w) + N.of_nat (length texts)) mod size_t_modulus)%N.
Proof.
  induction texts as [|t texts IH]; intros w Hwf Ho table k r posted; subst posted.
  - assert (r = CloseStream w) as -> by reflexivity.
    rewrite (CloseStream_open w Ho). cbn [fst snd unigrams fmap list_fmap length].
    rewrite app_nil_r, N.add_0_r.
    destruct Hwf as (_ & _ & Hc).
    rewrite stream_ngrams_short by (unfold ring_count, RingBuffer.GetCount in Hc;
                                    unfold ring_items; fold k in Hc; lia).
    split_and!; reflexivity.
  - pose proof Hwf as (Hk & Hcap & Hcount).
    pose proof (AddTerm_step t w Hwf Ho) as (_ & Hwf1 & Ho1 & _).
    assert (ring_count w <> ring_capacity w) as Hroom by lia.
    assert (r = (AddTerms texts;; CloseStream) (snd (AddTerm t w))) as ->.
    { subst r. cbn [AddTerms]. rewrite bind_assoc.
      now rewrite (bind_returned _ _ _ _ _ (AddTerm_open t w Ho Hroom)),
        (AddTerm_open t w Ho Hroom). }
    specialize (IH _ Hwf1 Ho1). cbv zeta in IH.
    destruct IH as (I1 & I2 & I3 & I4 & I5 & I6 & I7 & I8 & I9 & I10).
    rewrite I1, I2, I3, I4, I5, I6, I7, I8, I9, I10. clear I1 I2 I3 I4 I5 I6 I7 I8 I9 I10.
    rewrite (AddTerm_open t w Ho Hroom). cbn [snd]. cbv zeta.
    set (items := ring_items w ++ [unigram t w]) in *.
    assert (ring_items w ++ unigrams table (m_currentStreamId (doc w)) (t :: texts)
            = items ++ unigrams table (m_currentStreamId (doc w)) texts) as Hl.
    { subst items. unfold unigrams. rewrite fmap_cons, <- app_assoc. reflexivity. }
    rewrite Hl. cbn [length]. rewrite Nat2N.inj_succ.
    destruct (Nat.eqb_spec (length items) (m_maxGramSize (doc w))) as [E|E].
    + assert (items <> []) as Hne by (subst items; destruct (ring_items w); discriminate).
      rewrite (stream_ngrams_full k table items _ E Hne).
      fields.
      split_and!; try done.
      * now rewrite app_assoc.
      * now rewrite TermSet_insert_all_app.
      * apply size_t_add_mod.
    + fields. split_and!; try done. apply size_t_add_mod.
Qed.

Lemma IngestStream_exact name texts w :
  1 <= m_maxGramSize (doc w) <= ring_capacity w ->
  m_streamIsOpen (doc w) = false ->
  let table := m_docFreqTable (doc w) in
  let k := m_maxGramSize (doc w) in
  let r := IngestStream name texts w in
  let posted := stream_ngrams k table (unigrams table 0 texts) in
  fst r = Returned tt /\
  cout (snd r) = cout w ++ posted /\
  m_terms (doc (snd r)) = TermSet_insert_all posted (m_terms (doc w)) /\
  m_streamIsOpen (doc (snd r)) = false /\
  ring_items (snd r) = [] /\
  m_maxGramSize (doc (snd r)) = k /\
  m_docFreqTable (doc (snd r)) = table /\
  ring_capacity (snd r) = ring_capacity w /\
  (m_postingCount (doc (snd r)) mod size_t_modulus
   = (m_postingCount (doc w) + N.of_nat (length texts)) mod size_t_modulus)%N.
Proof.
  intros Hcfg Hc table k r posted.
  assert (r = (AddTerms texts;; CloseStream) (opened w)) as ->.
  { subst r. unfold IngestStream.
    now rewrite (bind_returned _ _ _ _ _ (OpenStream_closed name w Hc)). }
  pose proof (AddTerms_CloseStream_run texts (opened w) (well_formed_opened w Hcfg) eq_refl)
    as (I1 & I2 & I3 & I4 & I5 & I6 & I7 & I8 & _ & I10).
  cbv zeta in *.
  change (m_docFreqTable (doc (opened w))) with table in *.
  change (m_maxGramSize (doc (opened w))) with k in *.
  change (ring_items (opened w)) with (@nil Term) in *.
  change (m_currentStreamId (doc (opened w))) with 0%N in *.
  change (cout (opened w)) with (cout w) in *.
  change (m_terms (doc (opened w))) with (m_terms (doc w)) in *.
  change (ring_capacity (opened w)) with (ring_capacity w) in *.
  change (m_postingCount (doc (opened w))) with (m_postingCount (doc w)) in *.
  cbn [app] in *. done.
Qed.

(** Whatever the world, a call posts some list of terms: the output
    grows by it and the set by its insertion, nothing else touches
    either. *)
Lemma run_call_posts c w :
  exists posted,
    cout (snd (run_call c w)) = cout w ++ posted /\
    m_terms (doc (snd (run_call c w))) = TermSet_insert_all posted (m_terms (doc w)).
Proof.
  destruct c as [name|termText|]; cbn [run_call];
    destruct (m_streamIsOpen (doc w)) eqn:Ho.
  - rewrite (OpenStream_open name w Ho). exists []. now rewrite app_nil_r.
  - rewrite (OpenStream_closed name w Ho). exists []. now rewrite app_nil_r.
  - destruct (decide (ring_count w = ring_capacity w)) as [Hfull|Hroom].
    + rewrite (AddTerm_full termText w Ho Hfull). exists []. now rewrite app_nil_r.
    + rewrite (AddTerm_open termText w Ho Hroom). cbn [snd]. cbv zeta.
      destruct (Nat.eqb _ _).
      * eexists. split; reflexivity.
      * exists []. now rewrite app_nil_r.
  - rewrite (AddTerm_closed termText w Ho). exists []. now rewrite app_nil_r.
  - rewrite (CloseStream_open w Ho). eexists. split; reflexivity.
  - rewrite (CloseStream_closed w Ho). exists []. now rewrite app_nil_r.
Qed.

(** X1: a complete stream on a closed Document whose gram size [k >= 1]
    fits the ring buffer returns, and hands to [PostTerm] exactly the
    n-grams of order at most [k] of the stream's unigrams, ordered by
    starting position and, for one position, by length; whatever was
    left in the ring buffer before [OpenStream] plays no part.  The
    Document is closed again, with an empty buffer and the same gram
    size and capacity, ready for the next stream. *)
Theorem IngestStream_posts_ngrams_in_order (name : string) (texts : list string) (w : World) :
  1 <= m_maxGramSize (doc w) <= ring_capacity w ->
  m_streamIsOpen (doc w) = false ->
  let table := m_docFreqTable (doc w) in
  let k := m_maxGramSize (doc w) in
  let r := IngestStream name texts w in
  let posted := stream_ngrams k table (unigrams table 0 texts) in
  fst r = Returned tt /\
  cout (snd r) = cout w ++ posted /\
  m_terms (doc (snd r)) = TermSet_insert_all posted (m_terms (doc w)) /\
  m_streamIsOpen (doc (snd r)) = false /\
  ring_items (snd r) = [] /\
  1 <= m_maxGramSize (doc (snd r)) <= ring_capacity (snd r).
Proof.
  intros Hcfg Hc table k r posted.
  destruct (IngestStream_exact name texts w Hcfg Hc)
    as (I1 & I2 & I3 & I4 & I5 & I6 & _ & I8 & _).
  fold r in I1, I2, I3, I4, I5, I6, I8. rewrite I6, I8. done.
Qed.

Lemma IngestStream_posts_ngrams_witness :
  let table : DocFreqTable := fun _ => 0%N in
  let stale := Term_new "stale" 0 table in
  let w := mkWorld (mkDocument 2 table 0 false 0 (RingBuffer.mk 2 [stale]) ∅) [] in
  let a := Term_new "a" 0 table in
  let b := Term_new "b" 0 table in
  let c := Term_new "c" 0 table in
  (1 <= m_maxGramSize (doc w) <= ring_capacity w) /\
  m_streamIsOpen (doc w) = false /\
  cout (snd (IngestStream "body" ["a"; "b"; "c"] w))
  = [a; Term_AddTerm table a b; b; Term_AddTerm table b c; c].
Proof.
  intros table stale w a b c.
  assert (1 <= m_maxGramSize (doc w) <= ring_capacity w) as Hcfg by (cbn; lia).
  split; [exact Hcfg|]. split; [reflexivity|].
  pose proof (IngestStream_posts_ngrams_in_order "body" ["a"; "b"; "c"] w Hcfg eq_refl)
    as (_ & H2 & _).
  exact H2.
Defined.

(** X2: the terms such a stream hands to [PostTerm] are exactly the
    compositions of at most [maxGramSize] consecutive unigrams of the
    stream: none is missed and none is longer.  A term is in the set
    afterwards if and only if it was there before or equals (by text
    and frequency class) one of these n-grams. *)
Theorem IngestStream_posts_exactly_bounded_ngrams
    (name : string) (texts : list string) (w : World) :
  1 <= m_maxGramSize (doc w) <= ring_capacity w ->
  m_streamIsOpen (doc w) = false ->
  let table := m_docFreqTable (doc w) in
  let k := m_maxGramSize (doc w) in
  let r := IngestStream name texts w in
  exists posted,
    cout (snd r) = cout w ++ posted /\
    (forall t, t ∈ posted <-> is_ngram_of k table (unigrams table 0 texts) t) /\
    (forall t,
       TermSet_contains t (m_terms (doc (snd r))) <->
       TermSet_contains t (m_terms (doc w)) \/
       exists t', is_ngram_of k table (unigrams table 0 texts) t' /\
                  Term_key t' = Term_key t).
Proof.
  intros Hcfg Hc table k r.
  destruct (IngestStream_exact name texts w Hcfg Hc) as (_ & I2 & I3 & _).
  fold r table k in I2, I3.
  exists (stream_ngrams k table (unigrams table 0 texts)).
  split; [exact I2|]. split; [intros t; apply stream_ngrams_elem|].
  intros t. unfold TermSet_contains. rewrite <- !elem_of_dom, I3.
  rewrite TermSet_insert_all_dom, elem_of_union, elem_of_list_to_set, list_elem_of_fmap.
  split.
  - intros [(t' & Hk & Ht') | Hd]; [right | now left].
    exists t'. split; [now apply stream_ngrams_elem | done].
  - intros [Hd | (t' & Hn & Hk)]; [now right | left].
    exists t'. split; [done | now apply stream_ngrams_elem].
Qed.

Lemma IngestStream_posts_exactly_witness :
  let table : DocFreqTable := fun _ => 0%N in
  let w := mkWorld
             (Document_new {| GetMaxGramSize := 2; GetDocumentFrequencyTable := table |} 2 0)
             [] in
  (1 <= m_maxGramSize (doc w) <= ring_capacity w) /\
  m_streamIsOpen (doc w) = false /\
  exists posted,
    cout (snd (IngestStream "body" ["a"; "b"; "c"] w)) = cout w ++ posted /\
    (forall t, t ∈ posted <-> is_ngram_of 2 table (unigrams table 0 ["a"; "b"; "c"]) t).
Proof.
  intros table w.
  assert (1 <= m_maxGramSize (doc w) <= ring_capacity w) as Hcfg by (cbn; lia).
  split; [exact Hcfg|]. split; [reflexivity|].
  destruct (IngestStream_posts_exactly_bounded_ngrams "body" ["a"; "b"; "c"] w Hcfg eq_refl)
    as (posted & H1 & H2 & _).
  exists posted. split; [exact H1 | exact H2].
Defined.

(** X3: such a stream of [L] terms makes exactly
    [k * (L - c) + c * (c + 1) / 2] calls of [PostTerm], where
    [c = min L (k - 1)]: [k] for each full window and the shrinking
    windows of the drain.  For [L >= k - 1] that is [L*k - k*(k-1)/2];
    the number of unique terms grows by at most as much. *)
Theorem IngestStream_number_of_posts (name : string) (texts : list string) (w : World) :
  1 <= m_maxGramSize (doc w) <= ring_capacity w ->
  m_streamIsOpen (doc w) = false ->
  let k := m_maxGramSize (doc w) in
  let L := length texts in
  let r := IngestStream name texts w in
  length (cout (snd r)) = length (cout w) + posted_count k L /\
  posted_count k L
    = k * (L - Nat.min L (k - 1)) + Nat.min L (k - 1) * (Nat.min L (k - 1) + 1) / 2 /\
  (k - 1 <= L -> posted_count k L = L * k - k * (k - 1) / 2) /\
  GetPostingCount (doc w) <= GetPostingCount (doc (snd r))
    <= GetPostingCount (doc w) + posted_count k L.
Proof.
  intros Hcfg Hc k L r.
  destruct (IngestStream_exact name texts w Hcfg Hc) as (_ & I2 & I3 & _).
  fold r k in I2, I3.
  assert (length (stream_ngrams k (m_docFreqTable (doc w))
                    (unigrams (m_docFreqTable (doc w)) 0 texts))
          = posted_count k L) as Hlen.
  { rewrite stream_ngrams_length. unfold unigrams. now rewrite length_fmap. }
  split_and!.
  - now rewrite I2, length_app, Hlen.
  - unfold posted_count. now rewrite triangle_half.
  - intros HL. unfold posted_count. rewrite Nat.min_r by lia.
    assert (k * (k - 1) / 2 = triangle (k - 1)) as ->.
    { rewrite <- triangle_half. f_equal. replace (k - 1 + 1) with k by lia. lia. }
    pose proof (triangle_closed (k - 1)) as HT.
    replace (k - 1 + 1) with k in HT by lia. nia.
  - unfold GetPostingCount. rewrite I3.
    apply TermSet_insert_all_size.
  - unfold GetPostingCount. rewrite I3, <- Hlen.
    apply TermSet_insert_all_size.
Qed.

Lemma IngestStream_number_of_posts_witness :
  let w := mkWorld
             (Document_new
                {| GetMaxGramSize := 3; GetDocumentFrequencyTable := fun _ => 0%N |} 3 0)
             [] in
  (1 <= m_maxGramSize (doc w) <= ring_capacity w) /\
  m_streamIsOpen (doc w) = false /\
  length (cout (snd (IngestStream "body" ["a"; "b"; "a"; "b"; "a"] w))) = 12.
Proof.
  intros w.
  assert (1 <= m_maxGramSize (doc w) <= ring_capacity w) as Hcfg by (cbn; lia).
  split; [exact Hcfg|]. split; [reflexivity|].
  pose proof (IngestStream_number_of_posts "body" ["a"; "b"; "a"; "b"; "a"] w Hcfg eq_refl)
    as (H1 & _).
  exact H1.
Defined.

(** X4: two streams ingested one after the other post the n-grams of
    the first followed by the n-grams of the second, each taken on its
    own: no n-gram joins the end of one stream to the start of the
    next. *)
Theorem consecutive_streams_do_not_mix
    (name1 name2 : string) (texts1 texts2 : list string) (w : World) :
  1 <= m_maxGramSize (doc w) <= ring_capacity w ->
  m_streamIsOpen (doc w) = false ->
  let table := m_docFreqTable (doc w) in
  let k := m_maxGramSize (doc w) in
  let r := (IngestStream name1 texts1;; IngestStream name2 texts2) w in
  fst r = Returned tt /\
  cout (snd r)
  = cout w ++ stream_ngrams k table (unigrams table 0 texts1)
           ++ stream_ngrams k table (unigrams table 0 texts2) /\
  (forall t,
     TermSet_contains t (m_terms (doc (snd r))) ->
     TermSet_contains t (m_terms (doc w)) \/
     exists t', Term_key t' = Term_key t /\
       (is_ngram_of k table (unigrams table 0 texts1) t' \/
        is_ngram_of k table (unigrams table 0 texts2) t')).
Proof.
  intros Hcfg Hc table k r.
  destruct (IngestStream_exact name1 texts1 w Hcfg Hc)
    as (I1 & I2 & I3 & I4 & _ & I6 & I7 & I8 & _).
  destruct (IngestStream name1 texts1 w) as [o w1] eqn:E1. cbn [fst snd] in *. subst o.
  assert (r = IngestStream name2 texts2 w1) as ->.
  { subst r. now rewrite (bind_returned _ _ _ _ _ E1). }
  assert (1 <= m_maxGramSize (doc w1) <= ring_capacity w1) as Hcfg1 by (rewrite I6, I8; done).
  destruct (IngestStream_exact name2 texts2 w1 Hcfg1 I4) as (J1 & J2 & J3 & _).
  rewrite I6, I7 in J2, J3. fold table k in I2, I3, J2, J3.
  split_and!.
  - exact J1.
  - rewrite J2, I2. now rewrite <- app_assoc.
  - intros t. unfold TermSet_contains. rewrite <- !elem_of_dom, J3, I3.
    rewrite !TermSet_insert_all_dom, !elem_of_union, !elem_of_list_to_set,
      !list_elem_of_fmap.
    intros [(t' & Hk & Ht') | [(t' & Hk & Ht') | Hd]].
    + right. exists t'. split; [done|]. right. now apply stream_ngrams_elem.
    + right. exists t'. split; [done|]. left. now apply stream_ngrams_elem.
    + now left.
Qed.

Lemma consecutive_streams_witness :
  let table : DocFreqTable := fun _ => 0%N in
  let w := mkWorld
             (Document_new {| GetMaxGramSize := 2; GetDocumentFrequencyTable := table |} 2 0)
             [] in
  let a := Term_new "a" 0 table in
  let b := Term_new "b" 0 table in
  (1 <= m_maxGramSize (doc w) <= ring_capacity w) /\
  m_streamIsOpen (doc w) = false /\
  cout (snd ((IngestStream "title" ["a"];; IngestStream "body" ["b"]) w)) = [a; b].
Proof.
  intros table w a b.
  assert (1 <= m_maxGramSize (doc w) <= ring_capacity w) as Hcfg by (cbn; lia).
  split; [exact Hcfg|]. split; [reflexivity|].
  pose proof (consecutive_streams_do_not_mix "title" "body" ["a"] ["b"] w Hcfg eq_refl)
    as (_ & H2 & _).
  exact H2.
Defined.

(** X5: ingesting the same texts a second time adds nothing to the term
    set, so [GetPostingCount] stays, although every n-gram goes through
    [PostTerm] again. *)
Theorem repeated_stream_adds_no_terms
    (name1 name2 : string) (texts : list string) (w : World) :
  1 <= m_maxGramSize (doc w) <= ring_capacity w ->
  m_streamIsOpen (doc w) = false ->
  let w1 := snd (IngestStream name1 texts w) in
  let r := IngestStream name2 texts w1 in
  fst r = Returned tt /\
  m_terms (doc (snd r)) = m_terms (doc w1) /\
  GetPostingCount (doc (snd r)) = GetPostingCount (doc w1) /\
  exists posted,
    cout w1 = cout w ++ posted /\ cout (snd r) = cout w1 ++ posted.
Proof.
  intros Hcfg Hc w1 r.
  destruct (IngestStream_exact name1 texts w Hcfg Hc)
    as (_ & I2 & I3 & I4 & _ & I6 & I7 & I8 & _).
  fold w1 in I2, I3, I4, I6, I7, I8.
  assert (1 <= m_maxGramSize (doc w1) <= ring_capacity w1) as Hcfg1 by (rewrite I6, I8; done).
  destruct (IngestStream_exact name2 texts w1 Hcfg1 I4) as (J1 & J2 & J3 & _).
  fold r in J1, J2, J3. rewrite I6, I7 in J2, J3.
  assert (m_terms (doc (snd r)) = m_terms (doc w1)) as Hsame.
  { rewrite J3. apply TermSet_insert_all_absorb. intros t Ht.
    rewrite I3. now apply TermSet_insert_all_contains. }
  split_and!; [exact J1 | exact Hsame | unfold GetPostingCount; now rewrite Hsame |].
  eexists. split; [exact I2 | exact J2].
Qed.

Lemma repeated_stream_witness :
  let w := mkWorld
             (Document_new
                {| GetMaxGramSize := 2; GetDocumentFrequencyTable := fun _ => 0%N |} 2 0)
             [] in
  let w1 := snd (IngestStream "title" ["a"; "b"] w) in
  (1 <= m_maxGramSize (doc w) <= ring_capacity w) /\
  m_streamIsOpen (doc w) = false /\
  GetPostingCount (doc (snd (IngestStream "body" ["a"; "b"] w1))) = GetPostingCount (doc w1).
Proof.
  intros w w1.
  assert (1 <= m_maxGramSize (doc w) <= ring_capacity w) as Hcfg by (cbn; lia).
  split; [exact Hcfg|]. split; [reflexivity|].
  pose proof (repeated_stream_adds_no_terms "title" "body" ["a"; "b"] w Hcfg eq_refl)
    as (_ & _ & H3 & _).
  exact H3.
Defined.

(** ** The raw term counter *)

Lemma AddTerms_CloseStream_count texts : forall w,
  well_formed w ->
  m_streamIsOpen (doc w) = true ->
  (m_postingCount (doc w) < size_t_modulus)%N ->
  m_postingCount (doc (snd ((AddTerms texts;; CloseStream) w)))
  = ((m_postingCount (doc w) + N.of_nat (length texts)) mod size_t_modulus)%N.
Proof.
  induction texts as [|t texts IH]; intros w Hwf Ho Hlt.
  - assert ((AddTerms [];; CloseStream) w = CloseStream w) as -> by reflexivity.
    rewrite (CloseStream_open w Ho). cbn [snd length]. fields.
    rewrite N.add_0_r. symmetry. now apply N.mod_small.
  - pose proof Hwf as (Hk & Hcap & Hcount).
    pose proof (AddTerm_step t w Hwf Ho) as (_ & Hwf1 & Ho1 & _).
    assert (ring_count w <> ring_capacity w) as Hroom by lia.
    assert ((AddTerms (t :: texts);; CloseStream) w
            = (AddTerms texts;; CloseStream) (snd (AddTerm t w))) as ->.
    { cbn [AddTerms]. rewrite bind_assoc.
      now rewrite (bind_returned _ _ _ _ _ (AddTerm_open t w Ho Hroom)),
        (AddTerm_open t w Ho Hroom). }
    assert (m_postingCount (doc (snd (AddTerm t w)))
            = ((m_postingCount (doc w) + 1) mod size_t_modulus)%N) as Hpc.
    { rewrite (AddTerm_open t w Ho Hroom). cbn [snd]. cbv zeta.
      destruct (Nat.eqb _ _); reflexivity. }
    rewrite IH; [| exact Hwf1 | exact Ho1 | rewrite Hpc; now apply N.mod_lt].
    rewrite Hpc. cbn [length]. rewrite Nat2N.inj_succ. apply size_t_add_mod.
Qed.

(** X6: [m_postingCount] counts the [AddTerm] calls, not the unique
    terms: a complete stream of [L] texts advances it by [L] modulo
    2^64, whatever the texts are and however many terms they add to the
    set. *)
Theorem posting_counter_counts_AddTerm_calls
    (name : string) (texts : list string) (w : World) :
  1 <= m_maxGramSize (doc w) <= ring_capacity w ->
  m_streamIsOpen (doc w) = false ->
  (m_postingCount (doc w) < size_t_modulus)%N ->
  m_postingCount (doc (snd (IngestStream name texts w)))
  = ((m_postingCount (doc w) + N.of_nat (length texts)) mod size_t_modulus)%N.
Proof.
  intros Hcfg Hc Hlt.
  assert (IngestStream name texts w = (AddTerms texts;; CloseStream) (opened w)) as ->.
  { unfold IngestStream.
    now rewrite (bind_returned _ _ _ _ _ (OpenStream_closed name w Hc)). }
  now rewrite (AddTerms_CloseStream_count texts (opened w) (well_formed_opened w Hcfg) eq_refl).
Qed.

Lemma posting_counter_witness :
  let w := mkWorld
             (Document_new
                {| GetMaxGramSize := 1; GetDocumentFrequencyTable := fun _ => 0%N |} 1 0)
             [] in
  (1 <= m_maxGramSize (doc w) <= ring_capacity w) /\
  m_streamIsOpen (doc w) = false /\
  (m_postingCount (doc w) < size_t_modulus)%N /\
  m_postingCount (doc (snd (IngestStream "body" ["a"; "a"; "a"] w))) = 3%N /\
  GetPostingCount (doc (snd (IngestStream "body" ["a"; "a"; "a"] w))) = 1.
Proof.
  intros w.
  assert (1 <= m_maxGramSize (doc w) <= ring_capacity w) as Hcfg by (cbn; lia).
  assert (m_postingCount (doc w) < size_t_modulus)%N as Hlt by reflexivity.
  split; [exact Hcfg|]. split; [reflexivity|]. split; [exact Hlt|].
  split; [|vm_compute; reflexivity].
  exact (posting_counter_counts_AddTerm_calls "body" ["a"; "a"; "a"] w Hcfg eq_refl Hlt).
Defined.

(** ** What no call does *)

(** X7: no call ever removes a term from the set or replaces the stored
    one, on any Document and whether the call returns or throws; so
    [GetPostingCount] never decreases. *)
Theorem term_set_only_grows (c : call) (w : World) :
  (forall key t,
     m_terms (doc w) !! key = Some t ->
     m_terms (doc (snd (run_call c w))) !! key = Some t) /\
  GetPostingCount (doc w) <= GetPostingCount (doc (snd (run_call c w))).
Proof.
  destruct (run_call_posts c w) as (posted & _ & Hterms). rewrite Hterms. split.
  - intros key t. apply TermSet_insert_all_lookup.
  - unfold GetPostingCount. rewrite Hterms. apply TermSet_insert_all_size.
Qed.

Lemma run_calls_snoc calls c w :
  run_calls (calls ++ [c]) w = snd (run_call c (run_calls calls w)).
Proof. unfold run_calls. now rewrite foldl_app. Qed.

Lemma run_calls_dedup config capacity uninit calls :
  let w := run_calls calls (mkWorld (Document_new config capacity uninit) []) in
  m_terms (doc w) = TermSet_of_list (cout w).
Proof.
  intros w. subst w. induction calls as [|c calls IH] using rev_ind; [reflexivity|].
  rewrite run_calls_snoc.
  destruct (run_call_posts c (run_calls calls
              (mkWorld (Document_new config capacity uninit) [])))
    as (posted & Hcout & Hterms).
  rewrite Hcout, Hterms, IH. unfold TermSet_of_list.
  now rewrite TermSet_insert_all_app.
Qed.

(** X8: after any sequence of calls on a freshly constructed Document,
    valid or not and with any gram size and capacity, the term set is
    exactly the deduplication of the terms printed by [PostTerm] so far,
    in the order they were printed. *)
Theorem term_set_is_dedup_of_output
    (config : IConfiguration) (capacity : nat) (uninit : N) (calls : list call) :
  let w := run_calls calls (mkWorld (Document_new config capacity uninit) []) in
  m_terms (doc w) = TermSet_of_list (cout w) /\
  GetPostingCount (doc w) <= length (cout w) /\
  (forall t, TermSet_contains t (m_terms (doc w)) <->
             exists t', t' ∈ cout w /\ Term_key t' = Term_key t).
Proof.
  intros w.
  pose proof (run_calls_dedup config capacity uninit calls) as Hinv. fold w in Hinv.
  split; [exact Hinv|]. split.
  - unfold GetPostingCount. rewrite Hinv. unfold TermSet_of_list.
    pose proof (TermSet_insert_all_size (cout w) ∅) as Hs.
    rewrite map_size_empty in Hs. lia.
  - intros t. unfold TermSet_contains.
    rewrite <- elem_of_dom, Hinv, TermSet_of_list_dom, elem_of_list_to_set,
      list_elem_of_fmap.
    split; intros (t' & H1 & H2); exists t'; done.
Qed.

(** ** Edges of the window *)

Lemma stream_ngrams_unigrams table l : stream_ngrams 1 table l = l.
Proof.
  induction l as [|t0 rest IH]; [reflexivity|].
  cbn [stream_ngrams take window_ngrams compose_from app]. now rewrite IH.
Qed.

Lemma size_list_to_set_fmap `{Countable A, Countable B} (f : A -> B) (l : list A) :
  Inj (=) (=) f ->
  size (list_to_set (f <$> l) : gset B) = size (list_to_set l : gset A).
Proof.
  intros Hinj. apply Nat.le_antisymm.
  - unfold size at 1, set_size. simpl.
    assert (forall y, y ∈ elements (list_to_set (f <$> l) : gset B) ->
                      y ∈ f <$> elements (list_to_set l : gset A)) as Hsub.
    { intros y Hy. apply elem_of_elements, elem_of_list_to_set in Hy.
      apply list_elem_of_fmap in Hy as (x & -> & Hx).
      apply list_elem_of_fmap. exists x. split; [done|].
      now apply elem_of_elements, elem_of_list_to_set. }
    apply NoDup_submseteq in Hsub; [|apply NoDup_elements].
    apply submseteq_length in Hsub. now rewrite length_fmap in Hsub.
  - apply (size_le_of_inj f); [exact Hinj|].
    intros x Hx. apply elem_of_list_to_set, list_elem_of_fmap.
    exists x. split; [done | now apply elem_of_list_to_set in Hx].
Qed.

(** X9: with [maxGramSize = 1] a stream posts its unigrams, one per
    [AddTerm] and in stream order, and nothing else; on a fresh
    Document the number of unique terms is then exactly the number of
    distinct texts of the stream. *)
Theorem unigram_documents_count_distinct_texts
    (table : DocFreqTable) (capacity : nat) (uninit : N) (out : list Term)
    (name : string) (texts : list string) :
  1 <= capacity ->
  let config := {| GetMaxGramSize := 1; GetDocumentFrequencyTable := table |} in
  let r := IngestStream name texts (mkWorld (Document_new config capacity uninit) out) in
  fst r = Returned tt /\
  cout (snd r) = out ++ unigrams table 0 texts /\
  GetPostingCount (doc (snd r)) = size (list_to_set texts : gset string).
Proof.
  intros Hcap config r.
  assert (1 <= 1 <= capacity) as Hcfg by lia.
  destruct (IngestStream_exact name texts
              (mkWorld (Document_new config capacity uninit) out) Hcfg eq_refl)
    as (I1 & I2 & I3 & _).
  fold r in I1, I2, I3.
  cbn [doc cout Document_new m_terms m_maxGramSize m_docFreqTable config
       GetMaxGramSize GetDocumentFrequencyTable] in I2, I3.
  rewrite stream_ngrams_unigrams in I2, I3.
  split_and!; [exact I1 | exact I2 |].
  unfold GetPostingCount. rewrite <- size_dom, I3, TermSet_insert_all_dom.
  rewrite dom_empty_L, union_empty_r_L. unfold unigrams.
  rewrite <- list_fmap_compose.
  apply (size_list_to_set_fmap (Term_key ∘ (fun termText => Term_new termText 0 table))).
  intros t1 t2 [=]. assumption.
Qed.

Lemma unigram_documents_witness :
  let table : DocFreqTable := fun _ => 0%N in
  let r := IngestStream "body" ["to"; "be"; "or"; "not"; "to"; "be"]
             (mkWorld
                (Document_new {| GetMaxGramSize := 1; GetDocumentFrequencyTable := table |}
                   4 0) []) in
  1 <= 4 /\
  GetPostingCount (doc (snd r))
  = size (list_to_set ["to"; "be"; "or"; "not"; "to"; "be"] : gset string).
Proof.
  intros table r. assert (1 <= 4) as H by lia. split; [exact H|].
  pose proof (unigram_documents_count_distinct_texts table 4 0%N []
                "body" ["to"; "be"; "or"; "not"; "to"; "be"] H) as (_ & _ & H3).
  exact H3.
Defined.

(** A run of [AddTerm]s that never fills the window. *)
Lemma AddTerms_below_window (texts : list string) (w : World) :
  m_streamIsOpen (doc w) = true ->
  m_maxGramSize (doc w) = 0 \/ ring_count w + length texts < m_maxGramSize (doc w) ->
  ring_count w + length texts <= ring_capacity w ->
  let r := AddTerms texts w in
  fst r = Returned tt /\
  m_terms (doc (snd r)) = m_terms (doc w) /\
  GetPostingCount (doc (snd r)) = GetPostingCount (doc w) /\
  cout (snd r) = cout w /\
  ring_items (snd r)
  = ring_items w
    ++ unigrams (m_docFreqTable (doc w)) (m_currentStreamId (doc w)) texts /\
  m_streamIsOpen (doc (snd r)) = true /\
  ring_capacity (snd r) = ring_capacity w.
Proof.
  revert w. induction texts as [|t texts IH]; intros w Ho Hk Hcap r; subst r.
  - cbn. rewrite app_nil_r. done.
  - cbn [AddTerms length] in *.
    assert (ring_count w <> ring_capacity w) as Hroom by lia.
    rewrite (bind_returned _ _ _ _ _ (AddTerm_open t w Ho Hroom)). cbv zeta.
    assert (length (ring_items w ++ [unigram t w]) = S (ring_count w)) as Hlen.
    { rewrite length_app. unfold ring_count, RingBuffer.GetCount, ring_items. simpl. lia. }
    destruct (Nat.eqb_spec (length (ring_items w ++ [unigram t w]))
                (m_maxGramSize (doc w))) as [E|_]; [lia|].
    set (w1 := with_items (ring_items w ++ [unigram t w]) (counted w)).
    assert (ring_count w1 = S (ring_count w)) as Hc1.
    { subst w1. unfold ring_count, RingBuffer.GetCount in *. fields. exact Hlen. }
    destruct (IH w1) as (J1 & J2 & J3 & J4 & J5 & J6 & J7).
    + exact Ho.
    + rewrite Hc1. change (m_maxGramSize (doc w1)) with (m_maxGramSize (doc w)). lia.
    + rewrite Hc1. change (ring_capacity w1) with (ring_capacity w). lia.
    + cbv zeta in *. rewrite J1, J2, J3, J4, J5, J6, J7.
      split_and!; try reflexivity.
      subst w1. fields. unfold unigrams. rewrite fmap_cons, <- app_assoc. reflexivity.
Qed.

(** X10: as long as the window does not fill, [AddTerm] only buffers.  A run of [AddTerm]s that keeps the buffer
    below the gram size (or any run that fits the buffer when the gram
    size is 0) returns with the term set, [GetPostingCount] and the
    output unchanged and the new unigrams appended to the buffer: these
    terms are not in the set until the window fills or the stream is
    closed. *)
Theorem AddTerm_buffers_until_window_fills (texts : list string) (w : World) :
  m_streamIsOpen (doc w) = true ->
  m_maxGramSize (doc w) = 0 \/ ring_count w + length texts < m_maxGramSize (doc w) ->
  ring_count w + length texts <= ring_capacity w ->
  let r := AddTerms texts w in
  fst r = Returned tt /\
  m_terms (doc (snd r)) = m_terms (doc w) /\
  GetPostingCount (doc (snd r)) = GetPostingCount (doc w) /\
  cout (snd r) = cout w /\
  ring_items (snd r)
  = ring_items w
    ++ unigrams (m_docFreqTable (doc w)) (m_currentStreamId (doc w)) texts /\
  m_streamIsOpen (doc (snd r)) = true.
Proof.
  intros Ho Hk Hcap r.
  destruct (AddTerms_below_window texts w Ho Hk Hcap) as (H1 & H2 & H3 & H4 & H5 & H6 & _).
  done.
Qed.

Lemma AddTerm_buffers_witness :
  let table : DocFreqTable := fun _ => 0%N in
  let w := snd (OpenStream "body"
                  (mkWorld
                     (Document_new {| GetMaxGramSize := 3; GetDocumentFrequencyTable := table |}
                        3 0) [])) in
  m_streamIsOpen (doc w) = true /\
  (m_maxGramSize (doc w) = 0 \/ ring_count w + 2 < m_maxGramSize (doc w)) /\
  ring_count w + 2 <= ring_capacity w /\
  GetPostingCount (doc (snd (AddTerms ["a"; "b"] w))) = 0 /\
  ring_items (snd (AddTerms ["a"; "b"] w)) = [Term_new "a" 0 table; Term_new "b" 0 table].
Proof.
  intros table w.
  assert (m_maxGramSize (doc w) = 0 \/ ring_count w + 2 < m_maxGramSize (doc w)) as Hk
    by (right; cbn; lia).
  assert (ring_count w + 2 <= ring_capacity w) as Hcap by (cbn; lia).
  split; [reflexivity|]. split; [exact Hk|]. split; [exact Hcap|].
  pose proof (AddTerm_buffers_until_window_fills ["a"; "b"] w eq_refl Hk Hcap)
    as (_ & _ & H3 & _ & H5 & _).
  split; [exact H3 | exact H5].
Defined.

(** X11: the constructor does not check the gram size against the ring
    buffer.  With [maxGramSize = 0] or [maxGramSize > capacity] the
    window never fills, the first [capacity] terms of a stream are only
    buffered, and the next [AddTerm] fails at [PushBack] with the stream
    open: it has incremented [m_postingCount] and changed nothing
    else. *)
Theorem gram_size_beyond_capacity_overflows_buffer
    (config : IConfiguration) (capacity : nat) (uninit : N) (out : list Term)
    (name : string) (texts : list string) (termText : string) :
  GetMaxGramSize config = 0 \/ capacity < GetMaxGramSize config ->
  length texts = capacity ->
  let w1 := snd ((OpenStream name;; AddTerms texts)
                   (mkWorld (Document_new config capacity uninit) out)) in
  m_streamIsOpen (doc w1) = true /\
  GetPostingCount (doc w1) = 0 /\
  cout w1 = out /\
  ring_items w1 = unigrams (GetDocumentFrequencyTable config) 0 texts /\
  AddTerm termText w1
  = (Thrown (LogAssertFailed "RingBuffer::PushBack: count < capacity"), counted w1).
Proof.
  intros Hk Hlen w1.
  set (w0 := mkWorld (Document_new config capacity uninit) out) in *.
  assert (w1 = snd (AddTerms texts (opened w0))) as Hw1.
  { subst w1. now rewrite (bind_returned _ _ _ _ _ (OpenStream_closed name w0 eq_refl)). }
  destruct (AddTerms_below_window texts (opened w0)) as (_ & H2 & H3 & H4 & H5 & H6 & H7).
  - reflexivity.
  - change (m_maxGramSize (doc (opened w0))) with (GetMaxGramSize config).
    change (ring_count (opened w0)) with 0. lia.
  - change (ring_capacity (opened w0)) with capacity.
    change (ring_count (opened w0)) with 0. lia.
  - cbv zeta in *. rewrite <- Hw1 in *.
    split_and!; try done.
    apply AddTerm_full; [exact H6|].
    unfold ring_count, RingBuffer.GetCount. fold (ring_items w1). rewrite H5, H7.
    change (ring_items (opened w0)) with (@nil Term). cbn [app].
    unfold unigrams. now rewrite length_fmap, Hlen.
Qed.

Lemma gram_size_beyond_capacity_witness :
  let config := {| GetMaxGramSize := 3; GetDocumentFrequencyTable := fun _ => 0%N |} in
  let w1 := snd ((OpenStream "body";; AddTerms ["a"; "b"])
                   (mkWorld (Document_new config 2 0) [])) in
  (GetMaxGramSize config = 0 \/ 2 < GetMaxGramSize config) /\
  length ["a"; "b"] = 2 /\
  fst (AddTerm "c" w1)
  = Thrown (LogAssertFailed "RingBuffer::PushBack: count < capacity") /\
  m_postingCount (doc (snd (AddTerm "c" w1))) = 3%N /\
  GetPostingCount (doc (snd (AddTerm "c" w1))) = 0.
Proof.
  intros config w1.
  assert (GetMaxGramSize config = 0 \/ 2 < GetMaxGramSize config) as Hk by (right; cbn; lia).
  split; [exact Hk|]. split; [reflexivity|].
  pose proof (gram_size_beyond_capacity_overflows_buffer config 2 0%N [] "body"
                ["a"; "b"] "c" Hk eq_refl) as (_ & _ & _ & _ & H5).
  fold w1 in H5. rewrite H5. split_and!; reflexivity.
Defined.

(** X12: [ProcessNGrams] returns exactly when the ring buffer is not
    empty; on an empty buffer its assertion fails and nothing is posted.
    In both cases the ring buffer, the flag, the stream id, the counter
    and the gram size are as before: it only posts. *)
Theorem ProcessNGrams_only_posts (w : World) :
  (fst (ProcessNGrams w) = Returned tt <-> ring_items w <> []) /\
  (ring_items w = [] ->
   ProcessNGrams w = (Thrown (LogAssertFailed "count > 0"), w)) /\
  m_ringBuffer (doc (snd (ProcessNGrams w))) = m_ringBuffer (doc w) /\
  m_streamIsOpen (doc (snd (ProcessNGrams w))) = m_streamIsOpen (doc w) /\
  m_currentStreamId (doc (snd (ProcessNGrams w))) = m_currentStreamId (doc w) /\
  m_postingCount (doc (snd (ProcessNGrams w))) = m_postingCount (doc w) /\
  m_maxGramSize (doc (snd (ProcessNGrams w))) = m_maxGramSize (doc w) /\
  length (cout (snd (ProcessNGrams w))) = length (cout w) + ring_count w.
Proof.
  destruct (ring_items w) as [|t0 rest] eqn:Eits.
  - rewrite (ProcessNGrams_empty w Eits). cbn [fst snd].
    assert (ring_count w = 0) as -> by (unfold ring_count, RingBuffer.GetCount;
                                        unfold ring_items in Eits; now rewrite Eits).
    split_and!; done.
  - rewrite (ProcessNGrams_eq w t0 rest Eits). cbn [fst snd].
    assert (ring_count w = S (length rest)) as -> by (unfold ring_count, RingBuffer.GetCount;
                                        unfold ring_items in Eits; now rewrite Eits).
    split_and!; try done.
    fields. now rewrite length_app, window_ngrams_length.
Qed.

(** ** Ingest *)

Lemma Ingest_loop (l : list ((string * N) * Term)) : forall handle,
  foldl (fun h kv => AddPosting (snd kv) h) handle l = handle ++ (snd <$> l).
Proof.
  induction l as [|kv l IH]; intros handle; cbn [foldl fmap list_fmap].
  - now rewrite app_nil_r.
  - rewrite IH. unfold AddPosting. now rewrite <- app_assoc.
Qed.

Lemma TermSet_insert_all_origin l : forall s key t,
  TermSet_insert_all l s !! key = Some t ->
  s !! key = Some t \/ (t ∈ l /\ Term_key t = key).
Proof.
  induction l as [|x l IH]; intros s key t Hl; [now left|].
  rewrite TermSet_insert_all_cons in Hl. apply IH in Hl as [Hs | [Hin Hk]].
  - unfold TermSet_insert in Hs. destruct (s !! Term_key x) eqn:E; [now left|].
    apply lookup_insert_Some in Hs as [[<- <-] | [_ Hs]]; [right | now left].
    split; [apply list_elem_of_here | reflexivity].
  - right. split; [now apply list_elem_of_further | exact Hk].
Qed.

(** X13: after any sequence of calls on a freshly constructed Document,
    [Ingest] leaves what the handle already holds and gives
    [AddPosting] one call per unique term: [GetPostingCount] postings,
    no two of them equal as Terms (by text and frequency class), each
    of them a term that [PostTerm] printed, and every printed term
    represented.  The count it prints is [GetPostingCount]. *)
Theorem Ingest_posts_each_unique_term_once
    (config : IConfiguration) (capacity : nat) (uninit : N) (calls : list call)
    (handle : DocumentHandle) :
  let w := run_calls calls (mkWorld (Document_new config capacity uninit) []) in
  exists posted,
    snd (Ingest (doc w) handle) = handle ++ posted /\
    length posted = GetPostingCount (doc w) /\
    NoDup (Term_key <$> posted) /\
    (forall t, t ∈ posted -> t ∈ cout w) /\
    (forall t, t ∈ cout w -> exists t', t' ∈ posted /\ Term_key t' = Term_key t) /\
    cout_size (length posted) ∈ fst (Ingest (doc w) handle).
Proof.
  intros w.
  pose proof (run_calls_dedup config capacity uninit calls) as Hinv. fold w in Hinv.
  assert (forall key t, m_terms (doc w) !! key = Some t ->
                        t ∈ cout w /\ Term_key t = key) as Horigin.
  { intros key t Hl. rewrite Hinv in Hl. unfold TermSet_of_list in Hl.
    apply TermSet_insert_all_origin in Hl as [Hl | Hl]; [|exact Hl].
    now rewrite lookup_empty in Hl. }
  exists (snd <$> map_to_list (m_terms (doc w))).
  assert (length (snd <$> map_to_list (m_terms (doc w))) = GetPostingCount (doc w)) as Hlen.
  { rewrite length_fmap. unfold GetPostingCount. apply length_map_to_list. }
  split_and!.
  - unfold Ingest. cbn [snd]. apply Ingest_loop.
  - exact Hlen.
  - rewrite <- list_fmap_compose.
    rewrite (list_fmap_ext _ fst (map_to_list (m_terms (doc w)))).
    + apply NoDup_fst_map_to_list.
    + intros i [key t] Hi. cbn. apply list_elem_of_lookup_2 in Hi.
      apply elem_of_map_to_list in Hi. now apply Horigin in Hi.
  - intros t Ht. apply list_elem_of_fmap in Ht as ([key t'] & -> & Hin).
    apply elem_of_map_to_list in Hin. now apply Horigin in Hin.
  - intros t Ht.
    assert (TermSet_contains t (m_terms (doc w))) as [t' Ht'].
    { rewrite Hinv. now apply TermSet_insert_all_contains. }
    exists t'. split.
    + apply list_elem_of_fmap. exists (Term_key t, t'). split; [done|].
      now apply elem_of_map_to_list.
    + now apply Horigin in Ht'.
  - rewrite Hlen. unfold Ingest. cbn [fst]. set_solver.
Qed.

(** X14: one [AddTerm] on an open stream with room in the ring buffer
    posts exactly [maxGramSize] terms when its push fills the window,
    and then leaves [maxGramSize - 1] terms buffered; otherwise it
    posts nothing and the buffer is one longer.  So a call never posts
    more than [maxGramSize] terms. *)
Theorem AddTerm_posts_one_window_or_nothing (termText : string) (w : World) :
  m_streamIsOpen (doc w) = true ->
  ring_count w <> ring_capacity w ->
  let k := m_maxGramSize (doc w) in
  let w' := snd (AddTerm termText w) in
  fst (AddTerm termText w) = Returned tt /\
  (S (ring_count w) = k ->
   length (cout w') = length (cout w) + k /\
   cout w' = cout w
             ++ window_ngrams (m_docFreqTable (doc w))
                  (ring_items w ++ [unigram termText w]) /\
   ring_items w' = tail (ring_items w ++ [unigram termText w]) /\
   ring_count w' = k - 1) /\
  (S (ring_count w) <> k ->
   cout w' = cout w /\
   m_terms (doc w') = m_terms (doc w) /\
   ring_items w' = ring_items w ++ [unigram termText w]) /\
  length (cout w') <= length (cout w) + k.
Proof.
  intros Ho Hroom k w'. subst w'.
  rewrite (AddTerm_open termText w Ho Hroom). cbn [fst snd]. cbv zeta.
  assert (length (ring_items w ++ [unigram termText w]) = S (ring_count w)) as Hlen.
  { rewrite length_app. unfold ring_count, RingBuffer.GetCount, ring_items. simpl. lia. }
  destruct (Nat.eqb_spec (length (ring_items w ++ [unigram termText w]))
              (m_maxGramSize (doc w))) as [E|E]; fold k in E.
  - assert (length (cout w ++ window_ngrams (m_docFreqTable (doc w))
                              (ring_items w ++ [unigram termText w]))
            = length (cout w) + k) as Hc
      by (rewrite length_app, window_ngrams_length; lia).
    split_and!; [reflexivity | | intros Hne; lia | fields; lia].
    intros _. fields. split_and!; [exact Hc | reflexivity | reflexivity |].
    destruct (RingBuffer.items (m_ringBuffer (doc w)) ++ _) as [|t0 rest];
      cbn [length tail] in *; lia.
  - split_and!; [reflexivity | intros Hk; lia | | fields; lia].
    intros _. fields. done.
Qed.

Lemma AddTerm_posts_one_window_witness :
  let table : DocFreqTable := fun _ => 0%N in
  let w := snd ((OpenStream "body";; AddTerm "a")
                  (mkWorld
                     (Document_new {| GetMaxGramSize := 2; GetDocumentFrequencyTable := table |}
                        2 0) [])) in
  m_streamIsOpen (doc w) = true /\
  ring_count w <> ring_capacity w /\
  cout (snd (AddTerm "b" w))
  = [Term_new "a" 0 table; Term_AddTerm table (Term_new "a" 0 table) (Term_new "b" 0 table)].
Proof.
  intros table w.
  assert (ring_count w <> ring_capacity w) as Hroom by (cbn; lia).
  split; [reflexivity|]. split; [exact Hroom|].
  pose proof (AddTerm_posts_one_window_or_nothing "b" w eq_refl Hroom) as (_ & Hfull & _).
  destruct (Hfull eq_refl) as (_ & H2 & _). exact H2.
Defined.
